(** * Click-to-Pay WebView bridge: request/response correlation protocol

    A shallow embedding of the bridge implemented by the [VisaSDKIntegration]
    component: the host-side client ([callFunction], [handleMessage] and the
    30 s timer) and the script injected into the WebView ([checkSDK],
    [setupListeners] and the injected [handleMessage]).

    Modelling conventions.
    - Payloads are JSON values ([json]); JavaScript's [undefined] is [None]
      in an [option json].  Numbers are restricted to the safe integers
      (of absolute value below 2^53), which JavaScript represents exactly
      and prints in decimal: the bridge never computes with payload numbers.
    - [JSON.parse (JSON.stringify o)] for an object literal [o] is modelled
      by [obj], which drops the properties whose value is [undefined]; the
      parse of an arbitrary inbound string either raises ([Malformed] on
      the client, [Unparseable] on the server) or yields a JSON value
      ([Parsed]).
    - Time is in milliseconds.  On the client a timer set by [setTimeout]
      may fire at any moment from its deadline on, interleaved freely with
      the delivery of messages; the retry timer of the discovery loop is
      taken to fire at its deadline.
    - A promise is named by the rank of the [callFunction] invocation that
      created it; its [resolve]/[reject] continuations are recorded in an
      effect log when they are invoked.
    - Host callbacks ([onSDKReady], [onError]) are optional props; an
      invocation is recorded in the effect log and returns normally. *)

From Stdlib Require Import ZArith List String Ascii Lia.
From stdpp Require Import base decidable option list gmap strings pretty.

Set Warnings "-register-all".

Open Scope string_scope.
Open Scope Z_scope.

(** ** JSON values and the JavaScript conversions the bridge relies on *)

Module Js.

Definition safe_integer (n : Z) : bool := (Z.abs n <? 2 ^ 53)%Z.

Record number := Number { integer : Z; integer_safe : safe_integer integer = true }.

Inductive json : Type :=
  | JNull
  | JBool (b : bool)
  | JNum (n : number)
  | JStr (s : string)
  | JArr (items : list json)
  | JObj (fields : list (string * json)).

(** A value that may be [undefined]. *)
Abbreviation value := (option json).

(** Object literal whose [undefined]-valued properties are dropped, as
    [JSON.stringify] does. *)
Fixpoint omit_undefined (fields : list (string * value)) : list (string * json) :=
  match fields with
  | [] => []
  | (k, Some v) :: rest => (k, v) :: omit_undefined rest
  | (_, None) :: rest => omit_undefined rest
  end.

Definition obj (fields : list (string * value)) : json := JObj (omit_undefined fields).

Fixpoint assoc (k : string) (fields : list (string * json)) : value :=
  match fields with
  | [] => None
  | (k', v) :: rest => if String.eqb k k' then Some v else assoc k rest
  end.

(** [j.k] for a non-null [j] and a key [k] that is not a built-in property
    of strings or arrays (the bridge only reads [type], [id], [data],
    [error], [methods], [functionName], [args] and [message]). *)
Definition prop (j : json) (k : string) : value :=
  match j with
  | JObj fields => assoc k fields
  | _ => None
  end.

(** [v?.k] *)
Definition opt_prop (v : value) (k : string) : value :=
  match v with
  | None | Some JNull => None
  | Some j => prop j k
  end.

(** ToBoolean *)
Definition truthy (v : value) : bool :=
  match v with
  | None | Some JNull => false
  | Some (JBool b) => b
  | Some (JNum n) => negb (integer n =? 0)%Z
  | Some (JStr s) => negb (String.eqb s EmptyString)
  | Some (JArr _) | Some (JObj _) => true
  end.

(** [v === "s"] *)
Definition strict_eq_str (v : value) (s : string) : bool :=
  match v with
  | Some (JStr s') => String.eqb s' s
  | _ => false
  end.

Fixpoint join (sep : string) (parts : list string) : string :=
  match parts with
  | [] => EmptyString
  | [s] => s
  | s :: rest => s +:+ sep +:+ join sep rest
  end.

(** ToString on JSON values; [None] when the conversion raises a TypeError.
    An object is converted by the [toString] it finds: the inherited one
    gives "[object Object]"; an own property named [toString] hides it and,
    being a JSON value, is not callable, and then no primitive value can be
    obtained ([valueOf] returns the object itself, or is hidden in the same
    way).  An array is converted by [join], inside which [null] prints as
    the empty string and every other item by its own conversion. *)
Fixpoint to_string (j : json) : option string :=
  match j with
  | JNull => Some "null"
  | JBool true => Some "true"
  | JBool false => Some "false"
  | JNum n => Some (pretty (integer n))
  | JStr s => Some s
  | JArr items =>
      let fix parts (l : list json) : option (list string) :=
        match l with
        | [] => Some []
        | i :: rest =>
            match (match i with JNull => Some EmptyString | _ => to_string i end),
                  parts rest with
            | Some s, Some ss => Some (s :: ss)
            | _, _ => None
            end
        end in
      match parts items with
      | Some ss => Some (join "," ss)
      | None => None
      end
  | JObj fields =>
      match assoc "toString" fields with
      | Some _ => None
      | None => Some "[object Object]"
      end
  end.

(** [String(v)], also the conversion used by [new Error(v)], by [+] on
    strings, by template literals and by property keys; [None] when it
    raises. *)
Definition String_ (v : value) : option string :=
  match v with
  | None => Some "undefined"
  | Some j => to_string j
  end.

(** [v || d] *)
Definition or_else (v : value) (d : json) : json :=
  match v with
  | Some j => if truthy v then j else d
  | None => d
  end.

End Js.
Import Js.

(** ** Bridge client (host side) *)

Module Client.

Abbreviation promise := nat.

(** Exceptions that can be raised inside the [try] block of the client's
    [handleMessage]: by [JSON.parse], by reading a property of [null], and
    (a TypeError as well) by the string conversion in [new Error]. *)
Inductive exn := SyntaxError | TypeError | NoPrimitive.

Inductive effect :=
  | EvResolve (p : promise) (data : value)
  | EvReject (p : promise) (message : string)
  | EvReady (methods : json)
  | EvError (e : exn).

Record props := Props { onSDKReady : bool; onError : bool }.

(** The closure handed to [setTimeout] in [callFunction]: it captures [id],
    [functionName] and the promise's [reject]. *)
Record timer := Timer {
  t_set : Z;
  t_delay : Z;
  t_id : string;
  t_fn : string;
  t_reject : promise }.

Record client := Client {
  webViewRef : bool;
  messageId : nat;
  callbacks : gmap string promise;
  promises : nat;
  now : Z;
  timers : list timer;
  outbox : list (Z * json);
  log : list (Z * effect) }.

Definition init : client :=
  {| webViewRef := false; messageId := 0; callbacks := ∅; promises := 0;
     now := 0; timers := []; outbox := []; log := [] |}.

Definition emit (e : effect) (c : client) : client :=
  {| webViewRef := webViewRef c; messageId := messageId c;
     callbacks := callbacks c; promises := promises c; now := now c;
     timers := timers c; outbox := outbox c;
     log := log c ++ [(now c, e)] |}.

Definition set_callbacks (m : gmap string promise) (c : client) : client :=
  {| webViewRef := webViewRef c; messageId := messageId c;
     callbacks := m; promises := promises c; now := now c;
     timers := timers c; outbox := outbox c; log := log c |}.

Definition set_timers (ts : list timer) (c : client) : client :=
  {| webViewRef := webViewRef c; messageId := messageId c;
     callbacks := callbacks c; promises := promises c; now := now c;
     timers := ts; outbox := outbox c; log := log c |}.

Definition correlation_id (n : nat) : string := "msg_" +:+ pretty n.

Definition request (id fn : string) (args : list json) : json :=
  obj [("id", Some (JStr id)); ("functionName", Some (JStr fn));
       ("args", Some (JArr args))].

Definition timeout_ms : Z := 30000.

Definition callFunction (fn : string) (args : list json) (c : client) : client :=
  let p := promises c in
  if negb (webViewRef c) then
    emit (EvReject p "WebView not ready")
      {| webViewRef := webViewRef c; messageId := messageId c;
         callbacks := callbacks c; promises := S p; now := now c;
         timers := timers c; outbox := outbox c; log := log c |}
  else
    let id := correlation_id (messageId c) in
    {| webViewRef := webViewRef c; messageId := S (messageId c);
       callbacks := <[id := p]> (callbacks c);
       promises := S p; now := now c;
       timers := timers c ++
         [{| t_set := now c; t_delay := timeout_ms; t_id := id; t_fn := fn;
             t_reject := p |}];
       outbox := outbox c ++ [(now c, request id fn args)];
       log := log c |}.

Definition timeout_message (fn : string) : string := "Timeout calling " +:+ fn.

(** Body of the timer callback. *)
Definition on_timeout (tm : timer) (c : client) : client :=
  match callbacks c !! t_id tm with
  | Some _ =>
      emit (EvReject (t_reject tm) (timeout_message (t_fn tm)))
        (set_callbacks (delete (t_id tm) (callbacks c)) c)
  | None => c
  end.

Inductive inbound := Malformed | Parsed (j : json).

Definition call_onSDKReady (pr : props) (methods : json) (c : client) : client :=
  if onSDKReady pr then emit (EvReady methods) c else c.

Definition call_onError (pr : props) (e : exn) (c : client) : client :=
  if onError pr then emit (EvError e) c else c.

(** [callbacks.current.get(message.id)]: the keys of the table are strings,
    so a key of another type is never found. *)
Definition get_callback (c : client) (id : value) : option promise :=
  match id with
  | Some (JStr s) => callbacks c !! s
  | _ => None
  end.

Definition delete_callback (id : value) (c : client) : client :=
  match id with
  | Some (JStr s) => set_callbacks (delete s (callbacks c)) c
  | _ => c
  end.

(** The [try] block after a successful parse of a non-null message, with
    the [catch] block for the one exception it can still raise: in the error
    branch, [new Error(message.error)] converts the field to a string after
    the entry was deleted and before [reject] is called. *)
Definition on_message (pr : props) (message : json) (c : client) : client :=
  if strict_eq_str (prop message "type") "SDK_READY" then
    call_onSDKReady pr
      (or_else (opt_prop (prop message "data") "methods") (JArr [])) c
  else if truthy (prop message "id") then
    match get_callback c (prop message "id") with
    | Some callback =>
        let c' := delete_callback (prop message "id") c in
        if truthy (prop message "error") then
          match String_ (prop message "error") with
          | Some text => emit (EvReject callback text) c'
          | None => call_onError pr NoPrimitive c'
          end
        else
          emit (EvResolve callback (prop message "data")) c'
    | None => c
    end
  else c.

(** [JSON.parse] raises on malformed data and reading [message.type] raises
    on [null]; both land in the [catch] block. *)
Definition handleMessage (pr : props) (raw : inbound) (c : client) : client :=
  match raw with
  | Malformed => call_onError pr SyntaxError c
  | Parsed JNull => call_onError pr TypeError c
  | Parsed message => on_message pr message c
  end.

(** *** Event loop of the host: what can happen to a client *)

Inductive event :=
  | Attach (attached : bool)
  | Call (fn : string) (args : list json)
  | Deliver (raw : inbound)
  | Elapse (dt : N)
  | Fire (n : nat).

Definition step (pr : props) (c : client) (e : event) : option client :=
  match e with
  | Attach b =>
      Some {| webViewRef := b; messageId := messageId c;
              callbacks := callbacks c; promises := promises c; now := now c;
              timers := timers c; outbox := outbox c; log := log c |}
  | Call fn args => Some (callFunction fn args c)
  | Deliver raw => Some (handleMessage pr raw c)
  | Elapse dt =>
      Some {| webViewRef := webViewRef c; messageId := messageId c;
              callbacks := callbacks c; promises := promises c;
              now := now c + Z.of_N dt;
              timers := timers c; outbox := outbox c; log := log c |}
  | Fire n =>
      match timers c !! n with
      | Some tm =>
          if decide (t_set tm + t_delay tm ≤ now c)
          then Some (on_timeout tm (set_timers (delete n (timers c)) c))
          else None
      | None => None
      end
  end.

Fixpoint run (pr : props) (c : client) (evs : list event) : option client :=
  match evs with
  | [] => Some c
  | e :: rest =>
      match step pr c e with
      | Some c' => run pr c' rest
      | None => None
      end
  end.

End Client.

(** ** Bridge server (script injected into the WebView) *)

Module Server.

(** What a vendor function does when invoked: it (or the promise it
    returns, which the handler awaits) yields a result or raises. *)
Inductive thrown :=
  | ErrorObj (name message : string)
  | Thrown (v : value).

Inductive outcome :=
  | Returns (r : value)
  | Raises (e : thrown).

(** A property that [VSDK[name]] can reach: an own enumerable function or
    data property, or a function that [Object.keys] does not list because
    the object inherits it through its prototype chain (the [toString],
    [valueOf], ... of [Object.prototype], the methods of a class) or holds
    it as a non-enumerable property. *)
Inductive member :=
  | Callable (f : list json -> outcome)
  | Data (v : json)
  | Inherited (f : list json -> outcome).

(** The [VSDK] object: its own enumerable properties in key order, and the
    functions it reaches without listing them. *)
Definition vendor := list (string * member).

Definition listed (m : member) : bool :=
  match m with
  | Callable _ | Data _ => true
  | Inherited _ => false
  end.

(** [Object.keys(VSDK)] *)
Fixpoint keys (v : vendor) : list string :=
  match v with
  | [] => []
  | (k, m) :: rest => if listed m then k :: keys rest else keys rest
  end.

Fixpoint own_member (v : vendor) (k : string) : option member :=
  match v with
  | [] => None
  | (k', m) :: rest =>
      if listed m && String.eqb k k' then Some m else own_member rest k
  end.

Fixpoint inherited_member (v : vendor) (k : string) : option member :=
  match v with
  | [] => None
  | (k', m) :: rest =>
      if negb (listed m) && String.eqb k k' then Some m else inherited_member rest k
  end.

(** [VSDK[k]]: an own property hides an inherited one of the same name. *)
Definition member_of (v : vendor) (k : string) : option member :=
  match own_member v k with
  | Some m => Some m
  | None => inherited_member v k
  end.

(** The function [VSDK[k]], when [typeof VSDK[k]] is ['function']. *)
Definition function_of (v : vendor) (k : string) : option (list json -> outcome) :=
  match member_of v k with
  | Some (Callable f) | Some (Inherited f) => Some f
  | Some (Data _) | None => None
  end.

(** Errors raised by the JavaScript engine itself; their wording is the
    engine's. *)
Inductive engine_fault :=
  | BadJson
  | DestructureNull
  | SpreadNonIterable
  | PropOfNullish
  | NoPrimitiveValue.

(** The page the script runs in: [global_message] is the binding of the
    identifier [message] on the page's global object ([None] when there is
    none; the bootstrap document declares no such global). *)
Record page := Page {
  global_message : option value;
  engine_text : engine_fault -> string }.

Definition engine_error (pg : page) (f : engine_fault) : thrown :=
  match f with
  | BadJson => ErrorObj "SyntaxError" (engine_text pg f)
  | _ => ErrorObj "TypeError" (engine_text pg f)
  end.

Inductive source := DocumentMessage | WindowMessage.

Record server := Server {
  sdkReady : bool;
  checkAttempts : nat;
  listeners : list source;
  posted : list json;
  retry : option Z;
  clock : Z;
  polls : list Z }.

Definition maxAttempts : nat := 20.
Definition poll_ms : Z := 500.

Definition init : server :=
  {| sdkReady := false; checkAttempts := 0; listeners := []; posted := [];
     retry := None; clock := 0; polls := [] |}.

Definition post (m : json) (s : server) : server :=
  {| sdkReady := sdkReady s; checkAttempts := checkAttempts s;
     listeners := listeners s; posted := posted s ++ [m];
     retry := retry s; clock := clock s; polls := polls s |}.

Definition setupListeners (s : server) : server :=
  {| sdkReady := sdkReady s; checkAttempts := checkAttempts s;
     listeners := listeners s ++ [DocumentMessage; WindowMessage];
     posted := posted s; retry := retry s; clock := clock s;
     polls := polls s |}.

Definition ready_announcement (v : vendor) : json :=
  obj [("type", Some (JStr "SDK_READY"));
       ("data", Some (obj [("methods", Some (JArr (map JStr (keys v))))]))].

Definition failure_announcement : json :=
  obj [("type", Some (JStr "SDK_READY")); ("error", Some (JStr "VSDK not found"))].

(** [checkSDK]; [vsdk] is what the global [VSDK] holds at the time of the
    call ([None] when it is undeclared or falsy). *)
Definition checkSDK (vsdk : option vendor) (s : server) : server :=
  let n := S (checkAttempts s) in
  let s1 :=
    {| sdkReady := sdkReady s; checkAttempts := n; listeners := listeners s;
       posted := posted s; retry := retry s; clock := clock s;
       polls := polls s ++ [clock s] |} in
  match vsdk with
  | Some v =>
      setupListeners
        (post (ready_announcement v)
           {| sdkReady := true; checkAttempts := n; listeners := listeners s1;
              posted := posted s1; retry := retry s1; clock := clock s1;
              polls := polls s1 |})
  | None =>
      if (n <? maxAttempts)%nat then
        {| sdkReady := sdkReady s1; checkAttempts := n;
           listeners := listeners s1; posted := posted s1;
           retry := Some (clock s1 + poll_ms); clock := clock s1;
           polls := polls s1 |}
      else post failure_announcement s1
  end.

(** The pending [setTimeout(checkSDK, 500)] fires (punctually); [world t] is
    the content of the global [VSDK] at time [t]. *)
Definition tick (world : Z -> option vendor) (s : server) : server :=
  match retry s with
  | Some due =>
      checkSDK (world due)
        {| sdkReady := sdkReady s; checkAttempts := checkAttempts s;
           listeners := listeners s; posted := posted s; retry := None;
           clock := due; polls := polls s |}
  | None => s
  end.

(** The injected script runs [checkSDK()] once when it is evaluated. *)
Definition boot (world : Z -> option vendor) : server := checkSDK (world 0) init.

Definition discovery (world : Z -> option vendor) (ticks : nat) : server :=
  Nat.iter ticks (tick world) (boot world).

(** *** Call handling *)

Inductive inbound := Unparseable | Parsed (j : json).

(** [...(args || [])] *)
Definition spread (args : value) : option (list json) :=
  if truthy args then
    match args with
    | Some (JArr items) => Some items
    | Some (JStr s) => Some (map (fun ch => JStr (String ch EmptyString)) (list_ascii_of_string s))
    | _ => None
    end
  else Some [].

(** ['Function ' + functionName + ' not found. Available: ' + ...], where
    [name] is the string form of [functionName]. *)
Definition not_found_message (name : string) (v : vendor) : string :=
  "Function " +:+ name +:+ " not found. Available: " +:+ join ", " (keys v).

(** The [try] block of the injected [handleMessage]: the response it posts,
    or the exception that leaves it. *)
Definition try_block (pg : page) (vsdk : vendor) (s : server) (data : inbound)
  : thrown + json :=
  match data with
  | Unparseable => inl (engine_error pg BadJson)
  | Parsed JNull => inl (engine_error pg DestructureNull)
  | Parsed message =>
      let id := prop message "id" in
      let functionName := prop message "functionName" in
      let args := prop message "args" in
      if negb (sdkReady s) then inl (ErrorObj "Error" "SDK not ready")
      else
        match String_ functionName with
        | None => inl (engine_error pg NoPrimitiveValue)
        | Some name =>
            match function_of vsdk name with
            | Some f =>
                match spread args with
                | Some actuals =>
                    match f actuals with
                    | Returns result => inr (obj [("id", id); ("data", result)])
                    | Raises e => inl e
                    end
                | None => inl (engine_error pg SpreadNonIterable)
                end
            | None => inl (ErrorObj "Error" (not_found_message name vsdk))
            end
        end
  end.

(** [error.message || String(error)] *)
Definition message_or_string (pg : page) (error : thrown) : thrown + json :=
  match error with
  | ErrorObj name message =>
      inr (JStr (if String.eqb message EmptyString then name else message))
  | Thrown None | Thrown (Some JNull) => inl (engine_error pg PropOfNullish)
  | Thrown (Some v) =>
      if truthy (prop v "message") then inr (or_else (prop v "message") JNull)
      else
        match to_string v with
        | Some text => inr (JStr text)
        | None => inl (engine_error pg NoPrimitiveValue)
        end
  end.

(** How the [async] handler completes: normally, or with a rejection that
    nothing handles. *)
Inductive completion := Fulfilled | Rejected (e : thrown).

(** The [catch] block.  [message] is declared with [const] inside the [try]
    block, so in the [catch] block the identifier is resolved in the
    enclosing scopes: the handler's ([data], [error]), the script's
    ([sdkReady], [checkAttempts], [maxAttempts], [checkSDK],
    [setupListeners], [handleMessage]) and then the page's global object. *)
Definition catch_block (pg : page) (error : thrown) (s : server) : server * completion :=
  match global_message pg with
  | None => (s, Rejected (ErrorObj "ReferenceError" "message is not defined"))
  | Some None | Some (Some JNull) => (s, Rejected (engine_error pg PropOfNullish))
  | Some (Some m) =>
      match message_or_string pg error with
      | inl e => (s, Rejected e)
      | inr text => (post (obj [("id", prop m "id"); ("error", Some text)]) s, Fulfilled)
      end
  end.

Definition handleMessage (pg : page) (vsdk : vendor) (data : inbound) (s : server)
  : server * completion :=
  match try_block pg vsdk s data with
  | inr response => (post response s, Fulfilled)
  | inl error => catch_block pg error s
  end.

End Server.

(** ** Observations on runs, used to state the properties *)

Module Observe.
Import Client.

Local Open Scope nat_scope.

(** Whether an effect is an invocation of a continuation of promise [p]. *)
Definition settles (p : promise) (e : effect) : bool :=
  match e with
  | EvResolve q _ | EvReject q _ => Nat.eqb p q
  | EvReady _ | EvError _ => false
  end.

(** Number of times a continuation of promise [p] was invoked. *)
Fixpoint settlements (p : promise) (l : list (Z * effect)) : nat :=
  match l with
  | [] => 0
  | (_, e) :: rest => (if settles p e then 1 else 0) + settlements p rest
  end.

Definition is_ready (e : effect) : bool :=
  match e with EvReady _ => true | _ => false end.

Definition is_error (e : effect) : bool :=
  match e with EvError _ => true | _ => false end.

Fixpoint count_effects (f : effect -> bool) (l : list (Z * effect)) : nat :=
  match l with
  | [] => 0
  | (_, e) :: rest => (if f e then 1 else 0) + count_effects f rest
  end.

(** Messages delivered to the client whose [type] is ["SDK_READY"]. *)
Definition is_announcement (e : event) : bool :=
  match e with
  | Deliver (Parsed message) => strict_eq_str (prop message "type") "SDK_READY"
  | _ => false
  end.

Fixpoint announcements (evs : list event) : nat :=
  match evs with
  | [] => 0
  | e :: rest => (if is_announcement e then 1 else 0) + announcements rest
  end.

(** Correlation ids of the requests posted to the WebView, oldest first. *)
Definition sent_ids (c : client) : list string :=
  (fun m => match prop (snd m) "id" with
            | Some (JStr id) => id
            | _ => EmptyString
            end) <$> outbox c.

Definition reachable (pr : props) (c : client) : Prop :=
  exists evs, run pr init evs = Some c.

(** Messages whose [error] field, if any, has a string form, as the
    [Message] interface declares ([error?: string]). *)
Definition convertible_error (message : json) : bool :=
  match String_ (prop message "error") with
  | Some _ => true
  | None => false
  end.

Definition conforming (e : event) : bool :=
  match e with
  | Deliver (Parsed message) => convertible_error message
  | _ => true
  end.

(** The invariant of the pending-call table: a pending entry has not been
    settled and its timer is armed; an armed timer belongs to the promise
    of its entry, if that is still there; no promise is settled twice. *)
Record consistent (c : client) : Prop := Consistent {
  inv_pending : forall id p, callbacks c !! id = Some p ->
    settlements p (log c) = 0 /\
    exists tm, tm ∈ timers c /\ t_id tm = id /\ t_reject tm = p;
  inv_timer : forall tm, tm ∈ timers c ->
    t_reject tm < promises c /\
    (exists k, k < messageId c /\ t_id tm = correlation_id k) /\
    t_delay tm = timeout_ms /\
    (exists args, (t_set tm, request (t_id tm) (t_fn tm) args) ∈ outbox c) /\
    match callbacks c !! t_id tm with
    | Some q => q = t_reject tm
    | None => True
    end;
  inv_ids : NoDup (t_id <$> timers c);
  inv_rejects : NoDup (t_reject <$> timers c);
  inv_settled : forall p, settlements p (log c) <= 1;
  inv_future : forall p, promises c <= p -> settlements p (log c) = 0 }.

(** The fate of a call once it has been issued under [id] for promise [p]:
    still pending and unsettled, or gone and settled exactly once. *)
Definition fate (c : client) (id : string) (p : promise) : Prop :=
  p < promises c /\ (exists k, k < messageId c /\ id = correlation_id k) /\
  ((callbacks c !! id = Some p /\ settlements p (log c) = 0) \/
   (callbacks c !! id = None /\ settlements p (log c) = 1)).

(** The client after it has received, in order, the messages that the
    script posted. *)
Definition receive_all (pr : props) (messages : list json) (c : client) : client :=
  fold_left (fun c m => handleMessage pr (Parsed m) c) messages c.

(** The entry of [id] holds [p], or there is no entry of [id]. *)
Definition same_entry_or_gone (c : client) (id : string) (p : promise) : Prop :=
  callbacks c !! id = Some p \/ callbacks c !! id = None.

(** A promise that was created and that no entry of the table holds. *)
Definition forgotten (c : client) (p : promise) : Prop :=
  p < promises c /\ forall id, callbacks c !! id <> Some p.

(** Case folding, to look for a word whatever its capitalisation. *)
Definition lower (a : ascii) : ascii :=
  let n := nat_of_ascii a in
  if (65 <=? n) && (n <=? 90) then ascii_of_nat (n + 32) else a.

Fixpoint lowercase (s : string) : string :=
  match s with
  | EmptyString => EmptyString
  | String a rest => String (lower a) (lowercase rest)
  end.

Definition occurs_in (needle hay : string) : Prop :=
  exists before after, hay = before +:+ needle +:+ after.

End Observe.

Module Discovery.
Import Server.

Local Open Scope nat_scope.

(** Time of the check of rank [k] (from 0) when the timers are punctual. *)
Definition poll_time (k : nat) : Z := (poll_ms * Z.of_nat k)%Z.

(** The invariant of the discovery loop: while a retry is pending nothing
    has been posted or attached and fewer than [maxAttempts] checks were
    made; once it has stopped, exactly one announcement has been posted,
    either the failure after [maxAttempts] checks or the readiness, followed
    by the attachment of the two listeners. *)
Record discovering (world : Z -> option vendor) (s : server) : Prop := Discovering {
  d_attempts : 1 <= checkAttempts s <= maxAttempts;
  d_polls : polls s = poll_time <$> seq 0 (checkAttempts s);
  d_clock : clock s = poll_time (checkAttempts s - 1);
  d_state :
    match retry s with
    | Some due =>
        due = (clock s + poll_ms)%Z /\ checkAttempts s < maxAttempts /\
        posted s = [] /\ listeners s = [] /\ sdkReady s = false
    | None =>
        (posted s = [failure_announcement] /\ listeners s = [] /\
         sdkReady s = false /\ checkAttempts s = maxAttempts) \/
        (exists v, world (clock s) = Some v /\
           posted s = [ready_announcement v] /\
           listeners s = [DocumentMessage; WindowMessage] /\ sdkReady s = true)
    end }.

End Discovery.

(** ** Concrete sessions used to exercise the statements *)

Module Demo.
Import Client.

Definition pr : props := {| onSDKReady := true; onError := true |}.

Definition vsdk : Server.vendor :=
  [("initialize", Server.Callable (fun _ => Server.Returns None));
   ("getCards",
    Server.Callable (fun _ => Server.Raises (Server.ErrorObj "Error" "card lookup failed")));
   ("checkout", Server.Callable (fun args => Server.Returns (Some (JArr args))))].

(** The bootstrap document: no global named [message]. *)
Definition page : Server.page :=
  {| Server.global_message := None; Server.engine_text := fun _ => "engine error" |}.

(** The server after a discovery that found the vendor service at once. *)
Definition ready_server : Server.server := Server.discovery (fun _ => Some vsdk) 0.

(** One call issued on an attached WebView. *)
Definition one_call : list event := [Attach true; Call "initialize" [JObj []]].

Definition after_one_call : client := callFunction "initialize" [JObj []]
  {| webViewRef := true; messageId := 0; callbacks := ∅; promises := 0;
     now := 0; timers := []; outbox := []; log := [] |}.

Definition the_timer : timer :=
  {| t_set := 0; t_delay := timeout_ms; t_id := "msg_0"; t_fn := "initialize";
     t_reject := 0 |}.

(** The same call, thirty seconds later. *)
Definition one_call_expired : list event := (one_call ++ [Elapse 30000])%list.

Definition after_expiry : client :=
  {| webViewRef := true; messageId := 1; callbacks := callbacks after_one_call;
     promises := 1; now := 30000; timers := [the_timer];
     outbox := outbox after_one_call; log := [] |}.

(** A value of [Date.now()]. *)
Definition date_now : number := Number 1700000000000 eq_refl.

(** A vendor object without own properties, which only inherits
    [toString]. *)
Definition bare : Server.vendor :=
  [("toString", Server.Inherited (fun _ => Server.Returns (Some (JStr "[object Object]"))))].

(** A response to the first call whose [error] is an object that has a key
    [toString]. *)
Definition unconvertible : json :=
  obj [("id", Some (JStr "msg_0"));
       ("error", Some (JObj [("toString", JNum (Number 0 eq_refl))]))].

(** Two calls, the first of which has been answered. *)
Definition first_answer : json :=
  obj [("id", Some (JStr "msg_0")); ("data", Some (JBool true))].

Definition two_calls : list event :=
  (one_call ++ [Call "getCards" []; Deliver (Parsed first_answer)])%list.

Definition after_two_calls : client :=
  handleMessage pr (Parsed first_answer) (callFunction "getCards" [] after_one_call).

Definition second_answer : json :=
  obj [("id", Some (JStr "msg_1")); ("error", Some (JStr "declined"))].

End Demo.

(** ** Further observations on the client *)

Module Ledger.
Import Client Observe.

(** Invocations of a continuation, of whatever promise. *)
Definition is_settlement (e : effect) : bool :=
  match e with
  | EvResolve _ _ | EvReject _ _ => true
  | EvReady _ | EvError _ => false
  end.

Definition settled_total (l : list (Z * effect)) : nat := count_effects is_settlement l.

(** Payloads that make the [try] block of the client's [handleMessage]
    raise: data that does not parse, and the JSON value [null]. *)
Definition unreadable (raw : inbound) : bool :=
  match raw with
  | Malformed | Parsed JNull => true
  | Parsed _ => false
  end.

(** The shape of the message the injected script posts after a successful
    invocation, [{id: id, data: result}]. *)
Definition success_response (id : string) (data : value) : json :=
  obj [("id", Some (JStr id)); ("data", data)].

(** Responses that make the [try] block raise after the parse: a response
    to a pending call whose truthy [error] has no string form, on which
    [new Error(message.error)] raises. *)
Definition abandons (c : client) (raw : inbound) : bool :=
  match raw with
  | Malformed => false
  | Parsed message =>
      negb (strict_eq_str (prop message "type") "SDK_READY") &&
      truthy (prop message "id") &&
      match get_callback c (prop message "id") with Some _ => true | None => false end &&
      truthy (prop message "error") &&
      negb (convertible_error message)
  end.

End Ledger.

(** ** States of the discovery loop *)

Module Stages.
Import Server.

(** The state of the discovery loop after the check of rank [k] found
    nothing and scheduled the next one. *)
Definition searching (k : nat) : server :=
  {| sdkReady := false; checkAttempts := S k; listeners := []; posted := [];
     retry := Some (Discovery.poll_time (S k)); clock := Discovery.poll_time k;
     polls := Discovery.poll_time <$> seq 0 (S k) |}.

(** The state in which the loop stops when the check of rank [k] finds the
    vendor object [v]. *)
Definition found (k : nat) (v : vendor) : server :=
  {| sdkReady := true; checkAttempts := S k;
     listeners := [DocumentMessage; WindowMessage];
     posted := [ready_announcement v]; retry := None;
     clock := Discovery.poll_time k;
     polls := Discovery.poll_time <$> seq 0 (S k) |}.

End Stages.

(** ** Low-level WebView failures *)

Module Host.
Import Client.

(** [handleError]: the message of the [Error] handed to [onError];
    [description] is [syntheticEvent.nativeEvent.description].  [None] when
    [onError] is not called: no callback was given, or the string conversion
    in [new Error] raised, and the exception leaves the handler. *)
Definition handleError (pr : props) (description : value) : option string :=
  if onError pr
  then to_string (or_else description (JStr "WebView error"))
  else None.

End Host.

(** ** Native package registration (Android) *)

Module Package.

Section Registration.

(** [HyperswitchClickToPayModule.NAME], a constant of the module class, which
    is declared outside the package file. *)
Variable NAME : string.
Variable ReactApplicationContext : Type.

Inductive NativeModule :=
  | HyperswitchClickToPayModule (reactContext : ReactApplicationContext).

Record ReactModuleInfo := ModuleInfo {
  name : string;
  className : string;
  canOverrideExistingModule : bool;
  needsEagerInit : bool;
  isCxxModule : bool;
  isTurboModule : bool }.

Definition getModule (name : string) (reactContext : ReactApplicationContext)
  : option NativeModule :=
  if String.eqb name NAME then Some (HyperswitchClickToPayModule reactContext)
  else None.

(** The map built by the provider returned by [getReactModuleInfoProvider]. *)
Definition getReactModuleInfoProvider : gmap string ReactModuleInfo :=
  <[NAME := ModuleInfo NAME NAME false false false true]> ∅.

End Registration.

End Package.

(** ** The example application (a caller of the bridge) *)

Module Example.

(** The component's state hooks, and the alerts it has shown. *)
Record ui := Ui {
  status : string;
  loading : bool;
  showOtpInput : bool;
  otp : string;
  cards : json;
  selectedCardId : value;
  alerts : list (string * string) }.

Definition initial : ui :=
  {| status := "Not initialized"; loading := false; showOtpInput := false;
     otp := EmptyString; cards := JArr []; selectedCardId := Some (JStr EmptyString);
     alerts := [] |}.

Definition setStatus (s : string) (st : ui) : ui :=
  {| status := s; loading := loading st; showOtpInput := showOtpInput st;
     otp := otp st; cards := cards st; selectedCardId := selectedCardId st;
     alerts := alerts st |}.

Definition setLoading (b : bool) (st : ui) : ui :=
  {| status := status st; loading := b; showOtpInput := showOtpInput st;
     otp := otp st; cards := cards st; selectedCardId := selectedCardId st;
     alerts := alerts st |}.

Definition setShowOtpInput (b : bool) (st : ui) : ui :=
  {| status := status st; loading := loading st; showOtpInput := b;
     otp := otp st; cards := cards st; selectedCardId := selectedCardId st;
     alerts := alerts st |}.

Definition setCards (c : json) (st : ui) : ui :=
  {| status := status st; loading := loading st; showOtpInput := showOtpInput st;
     otp := otp st; cards := c; selectedCardId := selectedCardId st;
     alerts := alerts st |}.

Definition alert (title message : string) (st : ui) : ui :=
  {| status := status st; loading := loading st; showOtpInput := showOtpInput st;
     otp := otp st; cards := cards st; selectedCardId := selectedCardId st;
     alerts := alerts st ++ [(title, message)] |}.

(** How an awaited bridge promise ends.  The bridge rejects with [Error]
    objects only, whose message is a string. *)
Inductive settled :=
  | Resolved (v : value)
  | Rejected (message : string).

(** [sdkRef.current]: [None] while the bridge component is not mounted;
    otherwise what its [callFunction] promise will settle to. *)
Definition sdk := option (string -> list json -> settled).

Definition request := (string * list json)%type.

(** [await sdkRef.current?.callFunction(fn, ...args)], with the requests
    that were made. *)
Definition await_call (ref : sdk) (fn : string) (args : list json)
  : settled * list request :=
  match ref with
  | None => (Resolved None, [])
  | Some callFunction => (callFunction fn args, [(fn, args)])
  end.

Definition consumerIdentity : json :=
  JObj [("identityProvider", JStr "SRC");
        ("identityValue", JStr "pradeep.kumar@juspay.in");
        ("identityType", JStr "EMAIL_ADDRESS")].

(** The argument of [initialize]; [date_now] is the value of [Date.now()],
    a time value in milliseconds. *)
Definition initialize_options (date_now : number) : json :=
  JObj [("dpaTransactionOptions",
         JObj [("transactionAmount",
                JObj [("transactionAmount", JStr "123.94");
                      ("transactionCurrencyCode", JStr "USD")]);
               ("dpaBillingPreference", JStr "NONE");
               ("dpaAcceptedBillingCountries", JArr [JStr "US"; JStr "CA"]);
               ("merchantCategoryCode", JStr "4829");
               ("merchantCountryCode", JStr "US");
               ("payloadTypeIndicator", JStr "FULL");
               ("merchantOrderId", JStr ("order_" +:+ pretty (integer date_now)));
               ("paymentOptions",
                JArr [JObj [("dpaDynamicDataTtlMinutes", JNum (Number 2 eq_refl));
                            ("dynamicDataType",
                             JStr "CARD_APPLICATION_CRYPTOGRAM_LONG_FORM")]]);
               ("dpaLocale", JStr "en_US")]);
        ("correlationId", JStr "my-id")].

Definition getCards_options : json := obj [("consumerIdentity", Some consumerIdentity)].

Definition validation_options (otp : string) : json :=
  obj [("consumerIdentity", Some consumerIdentity); ("validationData", Some (JStr otp))].

Definition checkout_options (selectedCardId : value) : json :=
  obj [("srcDigitalCardId", selectedCardId);
       ("payloadTypeIndicatorCheckout", Some (JStr "FULL"));
       ("dpaTransactionOptions",
        Some (JObj
          [("authenticationPreferences",
            JObj [("authenticationMethods",
                   JArr [JObj [("authenticationMethodType", JStr "3DS");
                               ("authenticationSubject", JStr "CARDHOLDER");
                               ("methodAttributes",
                                JObj [("challengeIndicator", JStr "01")])]]);
                  ("payloadRequested", JStr "AUTHENTICATED")]);
           ("acquirerBIN", JStr "455555");
           ("acquirerMerchantId", JStr "12345678");
           ("merchantName", JStr "TestMerchant")]))].

(** [v?.[0]] *)
Definition opt_first (v : value) : value :=
  match v with
  | None | Some JNull => None
  | Some (JArr (x :: _)) => Some x
  | Some (JStr (String a _)) => Some (JStr (String a EmptyString))
  | Some (JObj fields) => assoc "0" fields
  | Some _ => None
  end.

(** [response.profiles?.[0]?.maskedCards || []] *)
Definition fetched_cards (response : json) : json :=
  or_else (opt_prop (opt_first (prop response "profiles")) "maskedCards") (JArr []).

(** The TypeErrors the handlers can meet: reading a property of [undefined]
    or [null], and converting to a string an object that has no primitive
    value; their wording is the engine's. *)
Inductive fault := NullishRead | NoPrimitive.

(** [`Found ${fetchedCards.length} cards`]: the length of an array or of a
    string, the [length] property of an object, [undefined] for a number or
    a boolean. *)
Definition found_message (fetchedCards : json) : fault + string :=
  let found (n : string) := inr ("Found " +:+ n +:+ " cards") in
  match fetchedCards with
  | JNull => inl NullishRead
  | JArr items => found (pretty (length items))
  | JStr s => found (pretty (String.length s))
  | JObj fields =>
      match String_ (assoc "length" fields) with
      | Some n => found n
      | None => inl NoPrimitive
      end
  | JBool _ | JNum _ => found "undefined"
  end.

(** The [catch] block shared by the three handlers. *)
Definition on_failure (message : string) (st : ui) : ui :=
  alert "Error" message (setStatus ("Error: " +:+ message) st).

(** After [getCards] resolved in [handleInitAndGetCards]; reading
    [response.actionCode] raises a TypeError when the response is undefined
    or null, and so may the status text, after the cards were set;
    [type_error] gives the engine's wording of a TypeError. *)
Definition on_cards_response (type_error : fault -> string) (response : value) (st : ui)
  : ui :=
  match response with
  | None | Some JNull => on_failure (type_error NullishRead) st
  | Some r =>
      if strict_eq_str (prop r "actionCode") "PENDING_CONSUMER_IDV" then
        alert "OTP Required" "Please check your email for OTP"
          (setStatus "OTP required - check your email" (setShowOtpInput true st))
      else if strict_eq_str (prop r "actionCode") "SUCCESS" then
        let st1 := setCards (fetched_cards r) st in
        match found_message (fetched_cards r) with
        | inr text => alert "Success" text (setStatus text st1)
        | inl f => on_failure (type_error f) st1
        end
      else st
  end.

Definition handleInitAndGetCards (type_error : fault -> string) (date_now : number) (ref : sdk)
    (st : ui) : ui * list request :=
  let st1 := setStatus "Initializing SDK..." (setLoading true st) in
  let (initialized, made1) := await_call ref "initialize" [initialize_options date_now] in
  match initialized with
  | Rejected message => (setLoading false (on_failure message st1), made1)
  | Resolved _ =>
      let st2 := setStatus "Getting cards..." st1 in
      let (answered, made2) := await_call ref "getCards" [getCards_options] in
      match answered with
      | Rejected message => (setLoading false (on_failure message st2), (made1 ++ made2)%list)
      | Resolved response =>
          (setLoading false (on_cards_response type_error response st2), (made1 ++ made2)%list)
      end
  end.

Definition on_validation_response (type_error : fault -> string) (response : value)
    (st : ui) : ui :=
  match response with
  | None | Some JNull => on_failure (type_error NullishRead) st
  | Some r =>
      if strict_eq_str (prop r "actionCode") "SUCCESS" then
        let st1 := setCards (fetched_cards r) st in
        match found_message (fetched_cards r) with
        | inr text => setShowOtpInput false (setStatus text st1)
        | inl f => on_failure (type_error f) st1
        end
      else st
  end.

Definition handleSubmitOtp (type_error : fault -> string) (ref : sdk) (st : ui)
  : ui * list request :=
  let st1 := setStatus "Validating OTP..." (setLoading true st) in
  let (answered, made) := await_call ref "getCards" [validation_options (otp st)] in
  match answered with
  | Rejected message => (setLoading false (on_failure message st1), made)
  | Resolved response =>
      (setLoading false (on_validation_response type_error response st1), made)
  end.

Definition handleCheckout (ref : sdk) (st : ui) : ui * list request :=
  if negb (truthy (selectedCardId st)) then
    (alert "Error" "Please select a card first" st, [])
  else
    let st1 := setStatus "Processing checkout..." (setLoading true st) in
    let (answered, made) :=
      await_call ref "checkout" [checkout_options (selectedCardId st)] in
    match answered with
    | Rejected message => (setLoading false (on_failure message st1), made)
    | Resolved _ =>
        (setLoading false
           (alert "Success" "Checkout completed!" (setStatus "Checkout completed!" st1)),
         made)
    end.

(** The callbacks the application gives to the bridge component;
    [error_text] is the message of the error object handed to [onError]. *)
Definition onSDKReady (methods : json) (st : ui) : ui := setStatus "SDK Ready" st.

Definition onError (error_text : string) (st : ui) : ui :=
  setStatus ("SDK Error: " +:+ error_text) st.

(** The effects of the bridge client as the application sees them; settled
    promises are seen by the handler that awaits them, not here. *)
Definition on_effect (exn_text : Client.exn -> string) (e : Client.effect) (st : ui) : ui :=
  match e with
  | Client.EvReady methods => onSDKReady methods st
  | Client.EvError x => onError (exn_text x) st
  | Client.EvResolve _ _ | Client.EvReject _ _ => st
  end.

Definition on_effects (exn_text : Client.exn -> string) (l : list (Z * Client.effect))
    (st : ui) : ui :=
  fold_left (fun acc te => on_effect exn_text (snd te) acc) l st.

End Example.

(** ** The example application mounted on the bridge *)

Module Mounted.

(** The example gives the component both callbacks. *)
Definition props : Client.props := {| Client.onSDKReady := true; Client.onError := true |}.

(** What the application shows after the client has handled one inbound
    message: the callbacks run for the effects the message produced. *)
Definition after_message (exn_text : Client.exn -> string) (raw : Client.inbound)
    (c : Client.client) (st : Example.ui) : Example.ui :=
  Example.on_effects exn_text
    (drop (length (Client.log c)) (Client.log (Client.handleMessage props raw c))) st.

(** What the application shows after the WebView reported a failure. *)
Definition after_webview_error (description : value) (st : Example.ui) : Example.ui :=
  match Host.handleError props description with
  | Some error_text => Example.onError error_text st
  | None => st
  end.

End Mounted.


(** * Properties of the client *)

Module ClientFacts.
Import Client Observe.

Local Open Scope nat_scope.

(** ** Lists with a duplicate-free projection (the armed timers) *)

Section Projection.
Context {A B : Type} (f : A -> B).

Lemma proj_inj (l : list A) x y :
  NoDup (f <$> l) -> x ∈ l -> y ∈ l -> f x = f y -> x = y.
Proof.
  intros Hnd [i Hi]%list_elem_of_lookup [j Hj]%list_elem_of_lookup Heq.
  assert (i = j) as ->.
  { eapply (NoDup_lookup (f <$> l) i j (f x)); auto.
    - rewrite list_lookup_fmap, Hi. reflexivity.
    - rewrite list_lookup_fmap, Hj. simpl. congruence. }
  congruence.
Qed.

Lemma delete_proj_ne (l : list A) n x y :
  NoDup (f <$> l) -> l !! n = Some x -> y ∈ delete n l -> f y <> f x.
Proof.
  intros Hnd Hn [j Hj]%list_elem_of_lookup Heq.
  assert (Hfx : (f <$> l) !! n = Some (f x)).
  { rewrite list_lookup_fmap, Hn. reflexivity. }
  destruct (decide (j < n)) as [Hlt | Hge].
  - rewrite list_lookup_delete_lt in Hj by lia.
    assert (j = n); [| lia].
    eapply (NoDup_lookup (f <$> l) j n (f x)); auto.
    rewrite list_lookup_fmap, Hj. simpl. congruence.
  - rewrite list_lookup_delete_ge in Hj by lia.
    assert (S j = n); [| lia].
    eapply (NoDup_lookup (f <$> l) (S j) n (f x)); auto.
    rewrite list_lookup_fmap, Hj. simpl. congruence.
Qed.

Lemma delete_keeps (l : list A) n x y :
  l !! n = Some x -> y ∈ l -> y <> x -> y ∈ delete n l.
Proof.
  intros Hn [j Hj]%list_elem_of_lookup Hne.
  apply list_elem_of_lookup.
  destruct (decide (j < n)) as [Hlt | Hge].
  - exists j. rewrite list_lookup_delete_lt by lia. exact Hj.
  - destruct j as [| j'].
    + assert (n = 0) by lia. subst n. congruence.
    + destruct (decide (S j' = n)) as [Heq | Hne']; [subst n; congruence |].
      exists j'. rewrite list_lookup_delete_ge by lia. exact Hj.
Qed.

Lemma delete_proj_NoDup (l : list A) n : NoDup (f <$> l) -> NoDup (f <$> delete n l).
Proof.
  intros Hnd. rewrite list_fmap_delete.
  eapply sublist_NoDup; [exact Hnd | apply sublist_delete].
Qed.
End Projection.

Lemma settlements_app p l1 l2 :
  settlements p (l1 ++ l2) = settlements p l1 + settlements p l2.
Proof.
  induction l1 as [| [t e] l1 IH]; simpl; [reflexivity |]. rewrite IH. lia.
Qed.

Lemma settlements_emit p e c :
  settlements p (log (emit e c)) = settlements p (log c) + (if settles p e then 1 else 0).
Proof. unfold emit; simpl. rewrite settlements_app. simpl. lia. Qed.

Lemma correlation_id_inj : Inj (=) (=) correlation_id.
Proof.
  intros m n H. unfold correlation_id in H.
  apply (inj pretty). exact (String.app_inj "msg_" _ _ H).
Qed.

Lemma consistent_init : consistent init.
Proof.
  split; simpl.
  - intros id p H. rewrite lookup_empty in H. discriminate.
  - intros tm H. apply not_elem_of_nil in H. contradiction.
  - constructor.
  - constructor.
  - intros p. lia.
  - reflexivity.
Qed.

Lemma pending_lt c id p : consistent c -> callbacks c !! id = Some p -> p < promises c.
Proof.
  intros Hc H. destruct (inv_pending c Hc id p H) as (_ & tm & Hin & _ & <-).
  apply (inv_timer c Hc tm Hin).
Qed.

Lemma pending_inj c id1 id2 p :
  consistent c -> callbacks c !! id1 = Some p -> callbacks c !! id2 = Some p -> id1 = id2.
Proof.
  intros Hc H1 H2.
  destruct (inv_pending c Hc _ _ H1) as (_ & tm1 & Hin1 & <- & Hp1).
  destruct (inv_pending c Hc _ _ H2) as (_ & tm2 & Hin2 & <- & Hp2).
  f_equal. apply (proj_inj t_reject (timers c)); auto using inv_rejects. congruence.
Qed.

Lemma fresh_id c : consistent c -> callbacks c !! correlation_id (messageId c) = None.
Proof.
  intros Hc. destruct (callbacks c !! correlation_id (messageId c)) as [p |] eqn:E; [| reflexivity].
  destruct (inv_pending c Hc _ _ E) as (_ & tm & Hin & Hid & _).
  destruct (inv_timer c Hc tm Hin) as (_ & (k & Hk & Hidk) & _).
  rewrite Hid in Hidk. apply correlation_id_inj in Hidk. lia.
Qed.

(** Effects that settle no promise keep the invariant. *)
Lemma consistent_emit c e :
  (forall p, settles p e = false) -> consistent c -> consistent (emit e c).
Proof.
  intros He Hc. split; simpl.
  - intros id p H. rewrite settlements_app; simpl. rewrite He.
    destruct (inv_pending c Hc id p H) as [-> ?]. split; [reflexivity | assumption].
  - intros tm H. apply (inv_timer c Hc tm H).
  - apply (inv_ids c Hc).
  - apply (inv_rejects c Hc).
  - intros p. rewrite settlements_app; simpl. rewrite He.
    pose proof (inv_settled c Hc p). lia.
  - intros p H. rewrite settlements_app; simpl. rewrite He.
    rewrite (inv_future c Hc p H). reflexivity.
Qed.

Lemma consistent_callFunction fn args c :
  consistent c -> consistent (callFunction fn args c).
Proof.
  intros Hc. unfold callFunction.
  pose proof (fresh_id c Hc) as Hfresh.
  destruct (webViewRef c); simpl.
  - (* attached: a fresh id, a new table entry and a new timer *)
    split; simpl.
    + intros id p H. destruct (decide (correlation_id (messageId c) = id)) as [<- | Hne].
      * rewrite lookup_insert_eq in H. injection H as <-. split.
        -- apply (inv_future c Hc). lia.
        -- eexists. split; [apply elem_of_app; right; apply list_elem_of_singleton; reflexivity |].
           split; reflexivity.
      * rewrite lookup_insert_ne in H by assumption.
        destruct (inv_pending c Hc id p H) as (H0 & tm & Hin & Hid & Hp).
        split; [assumption |]. exists tm. split; [apply elem_of_app; left; assumption | auto].
    + intros tm [Hin | Hin%list_elem_of_singleton]%elem_of_app.
      * destruct (inv_timer c Hc tm Hin) as (Hlt & (k & Hk & Hidk) & Hd & (a & Ha) & Hm).
        split; [lia |]. split; [exists k; split; [lia | assumption] |].
        split; [assumption |]. split; [exists a; apply elem_of_app; left; assumption |].
        rewrite lookup_insert_ne; [assumption |].
        rewrite Hidk. intros Heq%correlation_id_inj. lia.
      * subst tm; simpl. split; [lia |].
        split; [exists (messageId c); split; [lia | reflexivity] |].
        split; [reflexivity |].
        split; [exists args; apply elem_of_app; right; apply list_elem_of_singleton; reflexivity |].
        rewrite lookup_insert_eq. reflexivity.
    + rewrite fmap_app. apply NoDup_app. split; [apply (inv_ids c Hc) |]. split.
      * intros x Hx Hx'. apply list_elem_of_fmap in Hx as (tm & -> & Hin).
        simpl in Hx'. apply list_elem_of_singleton in Hx'.
        destruct (inv_timer c Hc tm Hin) as (_ & (k & Hk & Hidk) & _).
        rewrite Hidk in Hx'. apply correlation_id_inj in Hx'. lia.
      * simpl. apply NoDup_singleton.
    + rewrite fmap_app. apply NoDup_app. split; [apply (inv_rejects c Hc) |]. split.
      * intros x Hx Hx'. apply list_elem_of_fmap in Hx as (tm & -> & Hin).
        simpl in Hx'. apply list_elem_of_singleton in Hx'.
        destruct (inv_timer c Hc tm Hin) as (Hlt & _). lia.
      * simpl. apply NoDup_singleton.
    + apply (inv_settled c Hc).
    + intros p H. apply (inv_future c Hc). lia.
  - (* not attached: immediate rejection, no id consumed *)
    split; simpl.
    + intros id p H. rewrite settlements_app; simpl.
      pose proof (pending_lt c id p Hc H).
      destruct (Nat.eqb_spec p (promises c)); [lia |].
      destruct (inv_pending c Hc id p H) as [-> ?]. split; [reflexivity | assumption].
    + intros tm H. destruct (inv_timer c Hc tm H) as (? & ? & ? & ? & Hm).
      split; [lia |]. repeat split; assumption.
    + apply (inv_ids c Hc).
    + apply (inv_rejects c Hc).
    + intros p. rewrite settlements_app; simpl.
      destruct (Nat.eqb_spec p (promises c)) as [-> | Hne].
      * rewrite (inv_future c Hc); [lia | lia].
      * pose proof (inv_settled c Hc p). lia.
    + intros p H. rewrite settlements_app; simpl.
      destruct (Nat.eqb_spec p (promises c)); [lia |].
      rewrite (inv_future c Hc); [reflexivity | lia].
Qed.

(** Settling the promise of a pending entry, on either removal path: the
    entry is deleted first, and the timers that remain are those of [c]
    except possibly the one of the deleted id. *)
Lemma consistent_settle c id p e ts :
  consistent c ->
  callbacks c !! id = Some p ->
  settles p e = true ->
  (forall q, q <> p -> settles q e = false) ->
  (forall tm, tm ∈ ts -> tm ∈ timers c) ->
  (forall tm, tm ∈ timers c -> t_id tm <> id -> tm ∈ ts) ->
  NoDup (t_id <$> ts) ->
  NoDup (t_reject <$> ts) ->
  consistent (emit e (set_callbacks (delete id (callbacks c)) (set_timers ts c))).
Proof.
  intros Hc Hid Hp Hother Hsub Hkeep Hnd1 Hnd2.
  destruct (inv_pending c Hc id p Hid) as (Hzero & tm0 & Hin0 & Hid0 & Hp0).
  assert (Hown : forall tm, tm ∈ timers c -> t_reject tm = p -> t_id tm = id).
  { intros tm Hin Heq. rewrite <- Hid0. f_equal.
    apply (proj_inj t_reject (timers c)); auto using inv_rejects. congruence. }
  split; simpl.
  - intros id' p' H. apply lookup_delete_Some in H as [Hne H].
    destruct (inv_pending c Hc id' p' H) as (H0 & tm & Hin & Hidtm & Hptm).
    assert (p' <> p).
    { intros ->. apply Hne. symmetry. rewrite <- Hidtm. apply Hown; assumption. }
    rewrite settlements_app; simpl. rewrite Hother by assumption. split; [lia |].
    exists tm. split; [apply Hkeep; [assumption | congruence] | auto].
  - intros tm Hin%Hsub.
    destruct (inv_timer c Hc tm Hin) as (Hlt & Hk & Hd & Ha & Hm).
    repeat split; try assumption.
    destruct (decide (t_id tm = id)) as [Heq | Hne].
    + rewrite Heq, lookup_delete_eq. exact I.
    + rewrite lookup_delete_ne by congruence. exact Hm.
  - assumption.
  - assumption.
  - intros p'. rewrite settlements_app; simpl.
    destruct (decide (p' = p)) as [-> | Hne].
    + rewrite Hp. lia.
    + rewrite Hother by assumption. pose proof (inv_settled c Hc p'). lia.
  - intros p' H. rewrite settlements_app; simpl.
    pose proof (pending_lt c id p Hc Hid).
    rewrite Hother by lia. rewrite (inv_future c Hc p' H). reflexivity.
Qed.

(** Dropping an entry without settling its promise, as happens when the
    error of a response has no string form. *)
Lemma consistent_abandon c id :
  consistent c -> consistent (set_callbacks (delete id (callbacks c)) c).
Proof.
  intros Hc. split; simpl.
  - intros id' p' H. apply lookup_delete_Some in H as [Hne H].
    apply (inv_pending c Hc id' p' H).
  - intros tm Hin.
    destruct (inv_timer c Hc tm Hin) as (Hlt & Hk & Hd & Ha & Hm).
    repeat split; try assumption.
    destruct (decide (t_id tm = id)) as [Heq | Hne].
    + rewrite Heq, lookup_delete_eq. exact I.
    + rewrite lookup_delete_ne by congruence. exact Hm.
  - apply (inv_ids c Hc).
  - apply (inv_rejects c Hc).
  - apply (inv_settled c Hc).
  - apply (inv_future c Hc).
Qed.

Lemma settles_reject p msg : settles p (EvReject p msg) = true.
Proof. simpl. apply Nat.eqb_refl. Qed.

Lemma settles_resolve p v : settles p (EvResolve p v) = true.
Proof. simpl. apply Nat.eqb_refl. Qed.

Lemma settles_reject_ne p q msg : q <> p -> settles q (EvReject p msg) = false.
Proof. intros H. simpl. apply Nat.eqb_neq. assumption. Qed.

Lemma settles_resolve_ne p q v : q <> p -> settles q (EvResolve p v) = false.
Proof. intros H. simpl. apply Nat.eqb_neq. assumption. Qed.

Lemma get_callback_Some c v p :
  get_callback c v = Some p -> exists id, v = Some (JStr id) /\ callbacks c !! id = Some p.
Proof.
  unfold get_callback. destruct v as [[] |]; try discriminate. eauto.
Qed.

Lemma consistent_call_onError pr e c : consistent c -> consistent (call_onError pr e c).
Proof.
  intros Hc. unfold call_onError. destruct (onError pr); [| assumption].
  apply consistent_emit; [reflexivity | assumption].
Qed.

Lemma consistent_on_message pr message c :
  consistent c -> consistent (on_message pr message c).
Proof.
  intros Hc. unfold on_message.
  destruct (strict_eq_str _ _).
  { unfold call_onSDKReady. destruct (onSDKReady pr); [| assumption].
    apply consistent_emit; [reflexivity | assumption]. }
  destruct (truthy _); [| assumption].
  destruct (get_callback c _) as [p |] eqn:Hget; [| assumption].
  apply get_callback_Some in Hget as (id & -> & Hid). simpl.
  destruct (truthy (prop message "error")).
  - destruct (String_ (prop message "error")) as [text |].
    + apply (consistent_settle c id p _ (timers c)); auto using inv_ids, inv_rejects,
        settles_reject, settles_reject_ne.
    + apply consistent_call_onError, consistent_abandon, Hc.
  - apply (consistent_settle c id p _ (timers c)); auto using inv_ids, inv_rejects,
      settles_resolve, settles_resolve_ne.
Qed.

Lemma consistent_handleMessage pr raw c :
  consistent c -> consistent (handleMessage pr raw c).
Proof.
  intros Hc.
  destruct raw as [| []]; simpl; auto using consistent_on_message, consistent_call_onError.
Qed.

Lemma consistent_drop_timer c n tm :
  consistent c -> timers c !! n = Some tm -> callbacks c !! t_id tm = None ->
  consistent (set_timers (delete n (timers c)) c).
Proof.
  intros Hc Hn Hnone. split; simpl.
  - intros id p H. destruct (inv_pending c Hc id p H) as (H0 & tm' & Hin & Hid & Hp).
    split; [assumption |]. exists tm'. split; [| auto].
    apply (delete_keeps (timers c) n tm); auto. intros ->. congruence.
  - intros tm' Hin%list_elem_of_delete_inv. apply (inv_timer c Hc tm' Hin).
  - apply delete_proj_NoDup, (inv_ids c Hc).
  - apply delete_proj_NoDup, (inv_rejects c Hc).
  - apply (inv_settled c Hc).
  - apply (inv_future c Hc).
Qed.

Lemma consistent_fire c n tm :
  consistent c -> timers c !! n = Some tm ->
  consistent (on_timeout tm (set_timers (delete n (timers c)) c)).
Proof.
  intros Hc Hn. unfold on_timeout; simpl.
  pose proof (list_elem_of_lookup_2 _ _ _ Hn) as Hin.
  destruct (callbacks c !! t_id tm) as [q |] eqn:Hq.
  - destruct (inv_timer c Hc tm Hin) as (_ & _ & _ & _ & Hm). rewrite Hq in Hm. subst q.
    apply (consistent_settle c (t_id tm) (t_reject tm)); auto using settles_reject,
      settles_reject_ne, delete_proj_NoDup, inv_ids, inv_rejects.
    + intros tm'. apply list_elem_of_delete_inv.
    + intros tm' Hin' Hne. apply (delete_keeps (timers c) n tm); auto. congruence.
  - apply (consistent_drop_timer c n tm); assumption.
Qed.

Lemma consistent_step pr c e c' :
  consistent c -> step pr c e = Some c' -> consistent c'.
Proof.
  intros Hc. destruct e as [b | fn args | raw | dt | n]; simpl.
  - intros [= <-]. destruct Hc. split; assumption.
  - intros [= <-]. apply consistent_callFunction, Hc.
  - intros [= <-]. apply consistent_handleMessage, Hc.
  - intros [= <-]. destruct Hc. split; assumption.
  - destruct (timers c !! n) as [tm |] eqn:Hn; [| discriminate].
    destruct (decide _); [| discriminate].
    intros [= <-]. apply consistent_fire; assumption.
Qed.

Lemma consistent_run pr evs : forall c c',
  consistent c -> run pr c evs = Some c' -> consistent c'.
Proof.
  induction evs as [| e evs IH]; simpl; intros c c' Hc.
  - intros [= <-]. assumption.
  - destruct (step pr c e) as [c1 |] eqn:Hs; [| discriminate].
    apply IH. eapply consistent_step; eassumption.
Qed.

Lemma reachable_consistent pr c : reachable pr c -> consistent c.
Proof. intros [evs H]. eapply consistent_run; [apply consistent_init | exact H]. Qed.

End ClientFacts.

Module ServerFacts.
Import Server Discovery.
Local Open Scope nat_scope.

Lemma seq_snoc n : seq 0 (S n) = (seq 0 n ++ [n])%list.
Proof. rewrite seq_S. reflexivity. Qed.

Lemma boot_discovering world : discovering world (boot world).
Proof.
  unfold boot, checkSDK. destruct (world 0%Z) as [v |] eqn:Hw; simpl.
  - split; simpl; unfold maxAttempts; try reflexivity; try lia.
    right. exists v. auto.
  - split; simpl; unfold maxAttempts; try reflexivity; try lia.
    repeat split; lia.
Qed.

Lemma tick_terminal world s : retry s = None -> tick world s = s.
Proof. intros H. unfold tick. rewrite H. reflexivity. Qed.

Lemma checkSDK_attempts vsdk s : checkAttempts (checkSDK vsdk s) = S (checkAttempts s).
Proof. unfold checkSDK. destruct vsdk; [reflexivity |]. destruct (_ <? _); reflexivity. Qed.

Lemma checkSDK_polls vsdk s : polls (checkSDK vsdk s) = (polls s ++ [clock s])%list.
Proof. unfold checkSDK. destruct vsdk; [reflexivity |]. destruct (_ <? _); reflexivity. Qed.

Lemma checkSDK_clock vsdk s : clock (checkSDK vsdk s) = clock s.
Proof. unfold checkSDK. destruct vsdk; [reflexivity |]. destruct (_ <? _); reflexivity. Qed.

Lemma tick_discovering world s :
  discovering world s -> discovering world (tick world s).
Proof.
  intros [Ha Hp Hc Hs]. unfold tick.
  destruct (retry s) as [due |] eqn:Hr.
  - destruct Hs as (-> & Hlt & Hposted & Hlist & Hready).
    assert (Hdue : (clock s + poll_ms)%Z = poll_time (checkAttempts s)).
    { rewrite Hc. unfold poll_time, poll_ms. lia. }
    split.
    + rewrite checkSDK_attempts. cbn [checkAttempts]. lia.
    + rewrite checkSDK_polls, checkSDK_attempts. cbn [polls clock checkAttempts].
      rewrite seq_snoc, fmap_app, Hp, Hdue. reflexivity.
    + rewrite checkSDK_clock, checkSDK_attempts. cbn [clock checkAttempts].
      rewrite Hdue. f_equal. lia.
    + unfold checkSDK. cbn [checkAttempts listeners posted retry clock polls sdkReady].
      destruct (world (clock s + poll_ms)%Z) as [v |] eqn:Hw.
      * cbn. right. exists v. rewrite Hposted, Hlist. auto.
      * destruct (Nat.ltb_spec (S (checkAttempts s)) maxAttempts) as [Hlt' | Hge]; cbn.
        -- auto.
        -- left. rewrite Hposted. repeat split; auto. lia.
  - split; assumption || (rewrite Hr; assumption).
Qed.

Lemma tick_progress world s :
  retry s <> None -> checkAttempts (tick world s) = S (checkAttempts s).
Proof.
  unfold tick. destruct (retry s) as [due |]; [intros _ | congruence].
  unfold checkSDK; simpl.
  destruct (world due); simpl; [reflexivity |].
  destruct (_ <? _); reflexivity.
Qed.

Lemma discovery_discovering world n : discovering world (discovery world n).
Proof.
  unfold discovery. induction n as [| n IH]; simpl.
  - apply boot_discovering.
  - apply tick_discovering, IH.
Qed.

Lemma discovery_progress world n :
  retry (discovery world n) = None \/ checkAttempts (discovery world n) = S n.
Proof.
  unfold discovery. induction n as [| n IH]; simpl.
  - destruct (retry (boot world)) eqn:Hr; [right | left; reflexivity].
    unfold boot, checkSDK in *. destruct (world 0%Z); simpl in *; [discriminate | reflexivity].
  - destruct IH as [IH | IH].
    + left. rewrite tick_terminal; assumption.
    + destruct (retry (Nat.iter n (tick world) (boot world))) eqn:Hr.
      * right. rewrite tick_progress; [lia | congruence].
      * left. rewrite tick_terminal; assumption.
Qed.

Lemma discovery_stable world n m :
  retry (discovery world n) = None -> discovery world (n + m) = discovery world n.
Proof.
  intros H. induction m as [| m IH].
  - rewrite Nat.add_0_r. reflexivity.
  - rewrite Nat.add_succ_r. unfold discovery in *. simpl. rewrite IH.
    apply tick_terminal, H.
Qed.

Lemma discovery_terminates world n :
  maxAttempts - 1 <= n -> retry (discovery world n) = None.
Proof.
  intros Hn.
  assert (H19 : retry (discovery world (maxAttempts - 1)) = None).
  { destruct (discovery_progress world (maxAttempts - 1)) as [H | H]; [assumption |].
    pose proof (d_state world _ (discovery_discovering world (maxAttempts - 1))) as Hs.
    destruct (retry _); [| reflexivity].
    destruct Hs as (_ & Hlt & _). unfold maxAttempts in *. lia. }
  replace n with ((maxAttempts - 1) + (n - (maxAttempts - 1))) by lia.
  rewrite discovery_stable; assumption.
Qed.

End ServerFacts.

Module TraceFacts.
Import Client Observe ClientFacts.
Local Open Scope nat_scope.

(** ** What a step can do to the table, the log and the counters *)

Lemma call_onError_frame pr e c :
  messageId (call_onError pr e c) = messageId c /\
  promises (call_onError pr e c) = promises c /\
  outbox (call_onError pr e c) = outbox c /\
  timers (call_onError pr e c) = timers c /\
  now (call_onError pr e c) = now c.
Proof. unfold call_onError. destruct (onError pr); auto. Qed.

Lemma on_message_frame pr message c :
  messageId (on_message pr message c) = messageId c /\
  promises (on_message pr message c) = promises c /\
  outbox (on_message pr message c) = outbox c /\
  timers (on_message pr message c) = timers c /\
  now (on_message pr message c) = now c.
Proof.
  unfold on_message, call_onSDKReady, call_onError, delete_callback.
  destruct (strict_eq_str _ _); [destruct (onSDKReady pr); auto |].
  destruct (truthy (prop message "id")); [| auto].
  destruct (get_callback c _); [| auto].
  destruct (prop message "id") as [[] |]; destruct (truthy (prop message "error"));
    try destruct (String_ _); try destruct (onError pr); auto.
Qed.

Lemma handleMessage_frame pr raw c :
  messageId (handleMessage pr raw c) = messageId c /\
  promises (handleMessage pr raw c) = promises c /\
  outbox (handleMessage pr raw c) = outbox c /\
  timers (handleMessage pr raw c) = timers c /\
  now (handleMessage pr raw c) = now c.
Proof.
  destruct raw as [| []]; simpl; auto using on_message_frame, call_onError_frame.
Qed.

Lemma on_timeout_frame tm c :
  messageId (on_timeout tm c) = messageId c /\
  promises (on_timeout tm c) = promises c /\
  outbox (on_timeout tm c) = outbox c /\
  timers (on_timeout tm c) = timers c /\
  now (on_timeout tm c) = now c.
Proof. unfold on_timeout. destruct (callbacks c !! t_id tm); auto. Qed.

Lemma step_counters pr c e c' :
  step pr c e = Some c' -> messageId c <= messageId c' /\ promises c <= promises c'.
Proof.
  destruct e as [b | fn args | raw | dt | n]; simpl.
  - intros [= <-]. simpl. lia.
  - intros [= <-]. unfold callFunction. destruct (webViewRef c); simpl; lia.
  - intros [= <-]. destruct (handleMessage_frame pr raw c) as (-> & -> & _). lia.
  - intros [= <-]. simpl. lia.
  - destruct (timers c !! n) as [tm |]; [| discriminate].
    destruct (decide _); [| discriminate]. intros [= <-].
    destruct (on_timeout_frame tm (set_timers (delete n (timers c)) c)) as (-> & -> & _).
    simpl. lia.
Qed.

Lemma call_onError_log pr e c :
  exists l, log (call_onError pr e c) = (log c ++ l)%list.
Proof.
  unfold call_onError. destruct (onError pr); simpl; eauto.
  exists []. rewrite app_nil_r. reflexivity.
Qed.

Lemma on_message_log pr message c :
  exists l, log (on_message pr message c) = (log c ++ l)%list.
Proof.
  assert (Hnil : exists l, log c = (log c ++ l)%list) by (exists []; rewrite app_nil_r; reflexivity).
  unfold on_message, call_onSDKReady, call_onError, delete_callback.
  destruct (strict_eq_str _ _); [destruct (onSDKReady pr); simpl; eauto |].
  destruct (truthy (prop message "id")); [| assumption].
  destruct (get_callback c _); [| assumption].
  destruct (prop message "id") as [[] |];
    destruct (truthy (prop message "error")); try destruct (String_ _);
    try destruct (onError pr); simpl; eauto.
Qed.

Lemma step_log pr c e c' :
  step pr c e = Some c' -> exists l, log c' = (log c ++ l)%list.
Proof.
  assert (Hnil : exists l, log c = (log c ++ l)%list) by (exists []; rewrite app_nil_r; reflexivity).
  destruct e as [b | fn args | raw | dt | n]; simpl.
  - intros [= <-]. assumption.
  - intros [= <-]. unfold callFunction. destruct (webViewRef c); simpl; eauto.
  - intros [= <-]. destruct raw as [| []]; simpl;
      auto using on_message_log, call_onError_log.
  - intros [= <-]. assumption.
  - destruct (timers c !! n) as [tm |]; [| discriminate].
    destruct (decide _); [| discriminate]. intros [= <-].
    unfold on_timeout; simpl. destruct (callbacks c !! t_id tm); simpl; eauto.
Qed.

Lemma on_message_table pr message c id :
  callbacks (on_message pr message c) !! id = callbacks c !! id \/
  callbacks (on_message pr message c) !! id = None.
Proof.
  assert (Hdel : forall s, delete s (callbacks c) !! id = callbacks c !! id \/
                           delete s (callbacks c) !! id = None).
  { intros s. destruct (decide (s = id)) as [-> | Hne].
    - right. apply lookup_delete_eq.
    - left. apply lookup_delete_ne. assumption. }
  unfold on_message, call_onSDKReady, call_onError, delete_callback.
  destruct (strict_eq_str _ _); [destruct (onSDKReady pr); auto |].
  destruct (truthy (prop message "id")); [| auto].
  destruct (get_callback c _); [| auto].
  destruct (prop message "id") as [[] |];
    destruct (truthy (prop message "error")); try destruct (String_ _);
    try destruct (onError pr); simpl; auto.
Qed.

(** An entry is only ever left alone, deleted, or created under the id
    that the counter designates. *)
Lemma step_table pr c e c' id :
  step pr c e = Some c' ->
  callbacks c' !! id = callbacks c !! id \/
  callbacks c' !! id = None \/
  (id = correlation_id (messageId c) /\ callbacks c' !! id = Some (promises c)).
Proof.
  destruct e as [b | fn args | raw | dt | n]; simpl.
  - intros [= <-]. auto.
  - intros [= <-]. unfold callFunction. destruct (webViewRef c); simpl; [| auto].
    destruct (decide (correlation_id (messageId c) = id)) as [<- | Hne].
    + right. right. split; [reflexivity | apply lookup_insert_eq].
    + left. apply lookup_insert_ne. assumption.
  - intros [= <-]. destruct raw as [| message].
    + simpl. unfold call_onError. destruct (onError pr); auto.
    + destruct (on_message_table pr message c id) as [H | H].
      * destruct message; simpl; try tauto.
        unfold call_onError. destruct (onError pr); auto.
      * destruct message; simpl; try tauto.
        unfold call_onError. destruct (onError pr); auto.
  - intros [= <-]. auto.
  - destruct (timers c !! n) as [tm |]; [| discriminate].
    destruct (decide _); [| discriminate]. intros [= <-].
    unfold on_timeout; simpl. destruct (callbacks c !! t_id tm); simpl; [| auto].
    destruct (decide (t_id tm = id)) as [-> | Hne].
    + right. left. apply lookup_delete_eq.
    + left. apply lookup_delete_ne. assumption.
Qed.

Lemma settled_at_most_once c p : consistent c -> settlements p (log c) <= 1.
Proof. intros Hc. apply (inv_settled c Hc). Qed.

Lemma pending_issued c id p :
  consistent c -> callbacks c !! id = Some p ->
  p < promises c /\ exists k, k < messageId c /\ id = correlation_id k.
Proof.
  intros Hc H. split; [eapply pending_lt; eassumption |].
  destruct (inv_pending c Hc id p H) as (H0 & tm & Hin & Hid & _).
  destruct (inv_timer c Hc tm Hin) as (_ & (k & Hk & Hidk) & _).
  exists k. split; [assumption | congruence].
Qed.

Lemma pending_fate c id p : consistent c -> callbacks c !! id = Some p -> fate c id p.
Proof.
  intros Hc H. destruct (pending_issued c id p Hc H) as [Hp Hk].
  split; [exact Hp |]. split; [exact Hk |]. left. split; [exact H |].
  apply (inv_pending c Hc id p H).
Qed.

(** When a step removes a pending entry, it settles the promise of that
    entry, provided the message it handles, if any, has a convertible
    error. *)
Lemma step_removal pr c e c' id p :
  consistent c -> conforming e = true -> step pr c e = Some c' ->
  callbacks c !! id = Some p -> callbacks c' !! id = None ->
  settlements p (log c') = 1.
Proof.
  intros Hc Hconf Hstep Hid Hnone.
  destruct (inv_pending c Hc id p Hid) as (Hzero & _).
  destruct e as [b | fn args | raw | dt | n]; simpl in Hstep.
  - injection Hstep as <-. simpl in Hnone. congruence.
  - injection Hstep as <-. unfold callFunction in Hnone.
    destruct (webViewRef c); simpl in Hnone; [| congruence].
    rewrite lookup_insert_ne in Hnone; [congruence |].
    intros Heq. rewrite <- Heq, (fresh_id c Hc) in Hid. discriminate.
  - injection Hstep as <-.
    assert (Herr : forall x, callbacks (call_onError pr x c) !! id = None -> False).
    { intros x. unfold call_onError. destruct (onError pr); simpl; congruence. }
    destruct raw as [| message]; [exfalso; eapply Herr; exact Hnone |].
    assert (Hmsg : callbacks (on_message pr message c) !! id = None ->
                   settlements p (log (on_message pr message c)) = 1).
    { clear Hnone. simpl in Hconf. unfold convertible_error in Hconf.
      unfold on_message, call_onSDKReady.
      destruct (strict_eq_str _ _).
      { destruct (onSDKReady pr); simpl; congruence. }
      destruct (truthy (prop message "id")); [| congruence].
      destruct (get_callback c _) as [q |] eqn:Hget; [| congruence].
      apply get_callback_Some in Hget as (id' & Hmid & Hq). rewrite Hmid.
      cbn [delete_callback].
      destruct (decide (id' = id)) as [-> | Hne].
      - assert (q = p) by congruence. subst q.
        destruct (truthy (prop message "error")).
        + destruct (String_ (prop message "error")) as [text |]; [| discriminate Hconf].
          intros _. simpl. rewrite settlements_app. simpl. rewrite Nat.eqb_refl. lia.
        + intros _. simpl. rewrite settlements_app. simpl. rewrite Nat.eqb_refl. lia.
      - destruct (truthy (prop message "error")); [destruct (String_ _) |];
          unfold call_onError; try destruct (onError pr); simpl;
          rewrite lookup_delete_ne by assumption; congruence. }
    destruct message; simpl in *; try (apply Hmsg; exact Hnone).
    exfalso; eapply Herr; exact Hnone.
  - injection Hstep as <-. simpl in Hnone. congruence.
  - destruct (timers c !! n) as [tm |] eqn:Hn; [| discriminate].
    destruct (decide _); [| discriminate]. injection Hstep as <-.
    pose proof (list_elem_of_lookup_2 _ _ _ Hn) as Hin.
    destruct (inv_timer c Hc tm Hin) as (_ & _ & _ & _ & Hm).
    unfold on_timeout in *. simpl in *.
    destruct (callbacks c !! t_id tm) as [q |] eqn:Hq; simpl in *; [| congruence].
    destruct (decide (t_id tm = id)) as [Heq | Hne].
    + rewrite Heq in Hq. assert (Hqp : t_reject tm = p) by congruence.
      rewrite settlements_app. simpl. rewrite Hqp, Nat.eqb_refl. lia.
    + rewrite lookup_delete_ne in Hnone by assumption. congruence.
Qed.

(** Once issued under [id], a promise stays under that id until the entry
    is removed, and the id is never used again. *)
Lemma entry_step pr c e c' id p :
  consistent c -> step pr c e = Some c' ->
  (p < promises c /\ exists k, k < messageId c /\ id = correlation_id k) ->
  same_entry_or_gone c id p ->
  (p < promises c' /\ exists k, k < messageId c' /\ id = correlation_id k) /\
  same_entry_or_gone c' id p.
Proof.
  intros Hc Hstep (Hp & k & Hk & Hid) Hentry.
  destruct (step_counters pr c e c' Hstep) as [Hm Hpr].
  assert (Hnotfresh : id <> correlation_id (messageId c)).
  { rewrite Hid. intros Heq%correlation_id_inj. lia. }
  split; [split; [lia | exists k; split; [lia | assumption]] |].
  unfold same_entry_or_gone in *.
  destruct (step_table pr c e c' id Hstep) as [Hsame | [Hnone | [Hfresh _]]];
    [rewrite Hsame; assumption | right; assumption | contradiction].
Qed.

Lemma entry_run pr evs : forall c c' id p,
  consistent c -> run pr c evs = Some c' ->
  (p < promises c /\ exists k, k < messageId c /\ id = correlation_id k) ->
  same_entry_or_gone c id p ->
  same_entry_or_gone c' id p.
Proof.
  induction evs as [| e evs IH]; simpl; intros c c' id p Hc.
  - intros [= <-]. auto.
  - destruct (step pr c e) as [c1 |] eqn:Hs; [| discriminate].
    intros Hrun Hissued Hentry.
    destruct (entry_step pr c e c1 id p Hc Hs Hissued Hentry) as [Hissued1 Hentry1].
    apply (IH c1 c' id p); eauto using consistent_step.
Qed.

Lemma fate_step pr c e c' id p :
  consistent c -> conforming e = true -> step pr c e = Some c' ->
  fate c id p -> fate c' id p.
Proof.
  intros Hc Hconf Hstep (Hp & Hk & Hfate).
  pose proof (consistent_step pr c e c' Hc Hstep) as Hc'.
  destruct (step_log pr c e c' Hstep) as [l Hl].
  assert (Hentry : same_entry_or_gone c id p).
  { destruct Hfate as [[H _] | [H _]]; [left | right]; exact H. }
  destruct (entry_step pr c e c' id p Hc Hstep (conj Hp Hk) Hentry) as [[Hp' Hk'] Hentry'].
  split; [exact Hp' |]. split; [exact Hk' |].
  destruct Hentry' as [Hsome | Hnone].
  - left. split; [exact Hsome |]. apply (inv_pending c' Hc' id p Hsome).
  - right. split; [exact Hnone |].
    destruct Hfate as [[Hpend H0] | [Hgone H1]].
    + apply (step_removal pr c e c' id p); assumption.
    + pose proof (settled_at_most_once c' p Hc') as Hle.
      rewrite Hl, settlements_app in *. lia.
Qed.

Lemma fate_run pr evs : forall c c' id p,
  consistent c -> forallb conforming evs = true -> run pr c evs = Some c' ->
  fate c id p -> fate c' id p.
Proof.
  induction evs as [| e evs IH]; simpl; intros c c' id p Hc Hconf.
  - intros [= <-]. auto.
  - apply andb_prop in Hconf as [He Hrest].
    destruct (step pr c e) as [c1 |] eqn:Hs; [| discriminate].
    intros Hrun Hf. apply (IH c1 c' id p); eauto using consistent_step, fate_step.
Qed.

(** No step settles a promise that the table does not hold, and the
    table never takes such a promise back. *)
Lemma forgotten_step pr c e c' p :
  consistent c -> step pr c e = Some c' -> forgotten c p ->
  forgotten c' p /\ settlements p (log c') = settlements p (log c).
Proof.
  intros Hc Hstep [Hp Hfree].
  destruct (step_counters pr c e c' Hstep) as [_ Hpr].
  split; [split; [lia |] |].
  - intros id. destruct (step_table pr c e c' id Hstep) as [-> | [-> | [_ ->]]];
      [apply Hfree | discriminate | intros [= Heq]; lia].
  - destruct e as [b | fn args | raw | dt | n]; simpl in Hstep.
    + injection Hstep as <-. reflexivity.
    + injection Hstep as <-. unfold callFunction. destruct (webViewRef c); simpl; [reflexivity |].
      rewrite settlements_app. simpl.
      destruct (Nat.eqb_spec p (promises c)); [lia | simpl; lia].
    + injection Hstep as <-.
      assert (Herr : forall x, settlements p (log (call_onError pr x c)) = settlements p (log c)).
      { intros x. unfold call_onError. destruct (onError pr); simpl; [| reflexivity].
        rewrite settlements_app. simpl. lia. }
      destruct raw as [| message]; [apply Herr |].
      assert (Hmsg : settlements p (log (on_message pr message c)) = settlements p (log c)).
      { unfold on_message, call_onSDKReady, call_onError, delete_callback.
        destruct (strict_eq_str _ _).
        { destruct (onSDKReady pr); simpl; [| reflexivity].
          rewrite settlements_app. simpl. lia. }
        destruct (truthy (prop message "id")); [| reflexivity].
        destruct (get_callback c _) as [q |] eqn:Hget; [| reflexivity].
        apply get_callback_Some in Hget as (id' & Hmid & Hq). rewrite Hmid.
        assert (Hqp : (p =? q) = false).
        { apply Nat.eqb_neq. intros ->. exact (Hfree id' Hq). }
        destruct (truthy (prop message "error")); [destruct (String_ _) |];
          try destruct (onError pr); simpl; rewrite ?settlements_app; simpl;
          rewrite ?Hqp; simpl; lia. }
      destruct message; simpl; try exact Hmsg. apply Herr.
    + injection Hstep as <-. reflexivity.
    + destruct (timers c !! n) as [tm |] eqn:Hn; [| discriminate].
      destruct (decide _); [| discriminate]. injection Hstep as <-.
      pose proof (list_elem_of_lookup_2 _ _ _ Hn) as Hin.
      destruct (inv_timer c Hc tm Hin) as (_ & _ & _ & _ & Hm).
      unfold on_timeout. simpl.
      destruct (callbacks c !! t_id tm) as [q |] eqn:Hq; simpl; [| reflexivity].
      assert (Hqp : (p =? t_reject tm) = false).
      { apply Nat.eqb_neq. intros Heq. apply (Hfree (t_id tm)). congruence. }
      rewrite settlements_app. simpl. rewrite Hqp. simpl. lia.
Qed.

Lemma forgotten_run pr evs : forall c c' p,
  consistent c -> run pr c evs = Some c' -> forgotten c p ->
  settlements p (log c') = settlements p (log c).
Proof.
  induction evs as [| e evs IH]; simpl; intros c c' p Hc.
  - intros [= <-]. reflexivity.
  - destruct (step pr c e) as [c1 |] eqn:Hs; [| discriminate].
    intros Hrun Hf. destruct (forgotten_step pr c e c1 p Hc Hs Hf) as [Hf1 <-].
    apply (IH c1 c' p); eauto using consistent_step.
Qed.

(** Only objects and arrays can lack a string form, and these are truthy. *)
Lemma unconvertible_truthy message :
  convertible_error message = false -> truthy (prop message "error") = true.
Proof.
  unfold convertible_error, String_.
  destruct (prop message "error") as [[| [] | n | s | items | fields] |];
    simpl; try discriminate; reflexivity.
Qed.

End TraceFacts.

Module CountFacts.
Import Client Observe ClientFacts TraceFacts.
Local Open Scope nat_scope.

(** ** The ids that were sent *)

Lemma sent_ids_step pr c e c' :
  step pr c e = Some c' ->
  sent_ids c = correlation_id <$> seq 0 (messageId c) ->
  sent_ids c' = correlation_id <$> seq 0 (messageId c').
Proof.
  unfold sent_ids. destruct e as [b | fn args | raw | dt | n]; simpl.
  - intros [= <-]. auto.
  - intros [= <-] H. unfold callFunction.
    destruct (webViewRef c); cbn -[seq correlation_id]; [| assumption].
    rewrite fmap_app, H, seq_S, fmap_app. reflexivity.
  - intros [= <-]. destruct (handleMessage_frame pr raw c) as (-> & _ & -> & _). auto.
  - intros [= <-]. auto.
  - destruct (timers c !! n) as [tm |]; [| discriminate].
    destruct (decide _); [| discriminate]. intros [= <-].
    destruct (on_timeout_frame tm (set_timers (delete n (timers c)) c)) as (-> & _ & -> & _).
    auto.
Qed.

Lemma sent_ids_run pr evs : forall c c',
  run pr c evs = Some c' ->
  sent_ids c = correlation_id <$> seq 0 (messageId c) ->
  sent_ids c' = correlation_id <$> seq 0 (messageId c').
Proof.
  induction evs as [| e evs IH]; simpl; intros c c'.
  - intros [= <-]. auto.
  - destruct (step pr c e) as [c1 |] eqn:Hs; [| discriminate].
    intros Hrun H. apply (IH c1 c' Hrun). eapply sent_ids_step; eassumption.
Qed.

(** ** Invocations of the readiness callback *)

Lemma count_effects_app f l1 l2 :
  count_effects f (l1 ++ l2) = count_effects f l1 + count_effects f l2.
Proof.
  induction l1 as [| [t e] l1 IH]; simpl; [reflexivity |]. rewrite IH. lia.
Qed.

Lemma ready_on_message pr message c :
  count_effects is_ready (log (on_message pr message c)) =
  count_effects is_ready (log c) +
  (if onSDKReady pr && strict_eq_str (prop message "type") "SDK_READY" then 1 else 0).
Proof.
  unfold on_message, call_onSDKReady, call_onError, delete_callback.
  destruct (strict_eq_str _ _).
  - destruct (onSDKReady pr); simpl; [| lia]. rewrite count_effects_app. reflexivity.
  - rewrite andb_false_r.
    destruct (truthy (prop message "id")); [| lia].
    destruct (get_callback c _); [| lia].
    destruct (prop message "id") as [[] |];
      destruct (truthy (prop message "error")); try destruct (String_ _);
      try destruct (onError pr); simpl;
      rewrite ?count_effects_app; simpl; lia.
Qed.

Lemma ready_step pr c e c' :
  step pr c e = Some c' ->
  count_effects is_ready (log c') =
  count_effects is_ready (log c) +
  (if onSDKReady pr && is_announcement e then 1 else 0).
Proof.
  destruct e as [b | fn args | raw | dt | n]; simpl; rewrite ?andb_false_r.
  - intros [= <-]. simpl. lia.
  - intros [= <-]. unfold callFunction. destruct (webViewRef c); simpl; [lia |].
    rewrite count_effects_app. simpl. lia.
  - intros [= <-]. destruct raw as [| message]; simpl.
    + rewrite andb_false_r. unfold call_onError. destruct (onError pr); simpl; [| lia].
      rewrite count_effects_app. simpl. lia.
    + destruct message; try apply ready_on_message.
      simpl. rewrite andb_false_r. unfold call_onError.
      destruct (onError pr); simpl; [| lia]. rewrite count_effects_app. simpl. lia.
  - intros [= <-]. simpl. lia.
  - destruct (timers c !! n) as [tm |]; [| discriminate].
    destruct (decide _); [| discriminate]. intros [= <-].
    unfold on_timeout; simpl. destruct (callbacks c !! t_id tm); simpl; [| lia].
    rewrite count_effects_app. simpl. lia.
Qed.

Lemma ready_run pr evs : forall c c',
  run pr c evs = Some c' ->
  count_effects is_ready (log c') =
  count_effects is_ready (log c) + (if onSDKReady pr then announcements evs else 0).
Proof.
  induction evs as [| e evs IH]; simpl; intros c c'.
  - intros [= <-]. destruct (onSDKReady pr); lia.
  - destruct (step pr c e) as [c1 |] eqn:Hs; [| discriminate].
    intros Hrun. rewrite (IH c1 c' Hrun), (ready_step pr c e c1 Hs).
    destruct (onSDKReady pr); simpl; lia.
Qed.

End CountFacts.

(** * The properties of the bridge *)

Import Client Observe Discovery ClientFacts TraceFacts CountFacts ServerFacts.
Local Open Scope nat_scope.

Lemma correlation_id_nonempty k : String.eqb (correlation_id k) EmptyString = false.
Proof. reflexivity. Qed.

Lemma append_empty_r s : s +:+ EmptyString = s.
Proof.
  induction s as [| a s IH]; [reflexivity |].
  change (String a s +:+ EmptyString) with (String a (s +:+ EmptyString)). f_equal. exact IH.
Qed.

(** C1, as stated: every call of the pending-call table has exactly one of
    its continuations invoked, exactly once.  A response to a pending call
    whose [error] is an object with a key [toString] makes
    [new Error(message.error)] raise after the entry was deleted: the call
    has left the table and neither continuation has been invoked, and the
    timer that fires later finds no entry to reject. *)
Lemma settlement_can_be_skipped :
  ~ (forall pr evs c id p evs' c',
       run pr init evs = Some c -> callbacks c !! id = Some p ->
       run pr c evs' = Some c' ->
       (callbacks c' !! id = Some p /\ settlements p (log c') = 0) \/
       (callbacks c' !! id = None /\ settlements p (log c') = 1)).
Proof.
  intros H.
  destruct (H Demo.pr Demo.one_call Demo.after_one_call "msg_0" 0
              [Deliver (Parsed Demo.unconvertible); Elapse 30000; Fire 0] _
              eq_refl eq_refl eq_refl) as [[Hsome _] | [_ Hone]].
  - vm_compute in Hsome. discriminate Hsome.
  - vm_compute in Hone. discriminate Hone.
Qed.

(** C1, amended.  At-most-once resolution: in every state the client can
    reach, no promise has been settled more than once; a call that is still
    in the pending-call table has not been settled and its timer is armed;
    whatever happens next (responses and the timer in any order), the call
    is either still pending and unsettled, or removed and settled at most
    once, and exactly once when every response received had an [error] with
    a string form (any string, as the [Message] type declares it, number,
    boolean or [null], or none); each of the two removal paths, the timer and
    a matching response, removes the entry before it acts; the timer path
    settles the promise once, and so does the response path when the [error]
    has a string form; when it has none the promise is never settled. *)
Theorem at_most_once_resolution pr evs c :
  run pr init evs = Some c ->
  (forall p, settlements p (log c) <= 1) /\
  (forall id p, callbacks c !! id = Some p ->
     settlements p (log c) = 0 /\
     (exists n tm, timers c !! n = Some tm /\ t_id tm = id /\ t_reject tm = p) /\
     (forall evs' c', run pr c evs' = Some c' ->
        (callbacks c' !! id = Some p /\ settlements p (log c') = 0) \/
        (callbacks c' !! id = None /\ settlements p (log c') <= 1 /\
         (forallb conforming evs' = true -> settlements p (log c') = 1))) /\
     (forall n tm c', timers c !! n = Some tm -> t_id tm = id ->
        step pr c (Fire n) = Some c' ->
        callbacks c' !! id = None /\ settlements p (log c') = 1) /\
     (forall message,
        prop message "id" = Some (JStr id) ->
        strict_eq_str (prop message "type") "SDK_READY" = false ->
        callbacks (handleMessage pr (Parsed message) c) !! id = None /\
        (convertible_error message = true ->
         settlements p (log (handleMessage pr (Parsed message) c)) = 1) /\
        (convertible_error message = false ->
         forall evs' c', run pr (handleMessage pr (Parsed message) c) evs' = Some c' ->
           settlements p (log c') = 0))).
Proof.
  intros Hrun.
  assert (Hc : consistent c) by (apply (reachable_consistent pr); exists evs; exact Hrun).
  split; [intros p; apply settled_at_most_once, Hc |].
  intros id p Hid.
  pose proof (pending_fate c id p Hc Hid) as Hfate.
  destruct (pending_issued c id p Hc Hid) as [Hp Hk].
  destruct (inv_pending c Hc id p Hid) as (H0 & tm & Hin & Htid & Htp).
  split; [exact H0 |]. split.
  { apply list_elem_of_lookup in Hin as [n Hn]. exists n, tm. auto. }
  split; [| split].
  - intros evs' c' Hrun'.
    pose proof (consistent_run pr evs' c c' Hc Hrun') as Hc'.
    destruct (entry_run pr evs' c c' id p Hc Hrun' (conj Hp Hk) (or_introl Hid))
      as [Hsome | Hnone].
    + left. split; [exact Hsome |]. apply (inv_pending c' Hc' id p Hsome).
    + right. split; [exact Hnone |]. split; [apply settled_at_most_once, Hc' |].
      intros Hconf.
      destruct (fate_run pr evs' c c' id p Hc Hconf Hrun' Hfate)
        as (_ & _ & [[H _] | [_ H]]); [congruence | exact H].
  - intros n tm' c' Hn Htid' Hstep.
    assert (Hnone : callbacks c' !! id = None).
    { simpl in Hstep. rewrite Hn in Hstep. destruct (decide _); [| discriminate].
      injection Hstep as <-. unfold on_timeout; simpl. rewrite Htid', Hid. simpl.
      apply lookup_delete_eq. }
    split; [exact Hnone |].
    apply (step_removal pr c (Fire n) c' id p); auto.
  - intros message Hmid Htype.
    assert (Hnone : callbacks (handleMessage pr (Parsed message) c) !! id = None).
    { destruct Hk as (k & _ & ->).
      destruct message; try discriminate Hmid. simpl. unfold on_message.
      rewrite Htype, Hmid. cbn [truthy get_callback delete_callback].
      rewrite correlation_id_nonempty. cbn [negb]. rewrite Hid.
      unfold call_onError.
      destruct (truthy _); [destruct (String_ _) |]; try destruct (onError pr);
        simpl; apply lookup_delete_eq. }
    split; [exact Hnone |]. split.
    + intros Hconv.
      apply (step_removal pr c (Deliver (Parsed message)) _ id p); auto.
    + intros Hconv evs' c' Hrun'.
      pose proof (consistent_step pr c (Deliver (Parsed message)) _ Hc eq_refl) as Hc1.
      assert (Hlog : settlements p (log (handleMessage pr (Parsed message) c)) = 0).
      { pose proof (unconvertible_truthy message Hconv) as Htruthy.
        unfold convertible_error in Hconv.
        destruct Hk as (k & _ & ->).
        destruct message; try discriminate Hmid. simpl. unfold on_message.
        rewrite Htype, Hmid. cbn [truthy get_callback delete_callback].
        rewrite correlation_id_nonempty. cbn [negb]. rewrite Hid.
        rewrite Htruthy.
        destruct (String_ (prop (JObj fields) "error")); [discriminate Hconv |].
        unfold call_onError. destruct (onError pr); simpl; [| exact H0].
        rewrite settlements_app, H0. reflexivity. }
      rewrite <- Hlog. apply (forgotten_run pr evs'); [exact Hc1 | exact Hrun' |].
      split.
      * destruct (handleMessage_frame pr (Parsed message) c) as (_ & -> & _). exact Hp.
      * intros id' Hid'.
        destruct (decide (id' = id)) as [-> | Hne]; [congruence |].
        destruct (step_table pr c (Deliver (Parsed message)) _ id' eq_refl)
          as [Hsame | [Hgone | [_ Hnew]]]; [| congruence |].
        -- rewrite Hsame in Hid'. apply Hne.
           apply (pending_inj c id' id p Hc Hid' Hid).
        -- rewrite Hnew in Hid'. injection Hid' as Heq. lia.
Qed.

Lemma at_most_once_resolution_witness :
  run Demo.pr init Demo.two_calls = Some Demo.after_two_calls /\
  log Demo.after_two_calls = [(0%Z, EvResolve 0 (Some (JBool true)))] /\
  callbacks Demo.after_two_calls !! "msg_1" = Some 1 /\
  callbacks (handleMessage Demo.pr (Parsed Demo.second_answer) Demo.after_two_calls)
    !! "msg_1" = None /\
  settlements 1
    (log (handleMessage Demo.pr (Parsed Demo.second_answer) Demo.after_two_calls)) = 1.
Proof.
  assert (H : run Demo.pr init Demo.two_calls = Some Demo.after_two_calls) by reflexivity.
  assert (Hid : callbacks Demo.after_two_calls !! "msg_1" = Some 1) by reflexivity.
  split; [exact H |]. split; [reflexivity |]. split; [exact Hid |].
  destruct (at_most_once_resolution Demo.pr Demo.two_calls Demo.after_two_calls H)
    as [_ Hpending].
  destruct (Hpending "msg_1" 1 Hid) as (_ & _ & _ & _ & Hresponse).
  destruct (Hresponse Demo.second_answer eq_refl eq_refl) as (Hnone & Hone & _).
  split; [exact Hnone | exact (Hone eq_refl)].
Defined.

(** C3. Uniqueness of correlation ids: in every session the ids sent so far
    are [msg_0], [msg_1], ... in the order of allocation, that is the fixed
    prefix followed by the decimal value of the counter; a later call gets a
    larger counter value, and no id is used twice. *)
Theorem correlation_ids_unique pr evs c :
  run pr init evs = Some c ->
  sent_ids c = correlation_id <$> seq 0 (messageId c) /\
  (forall i id, sent_ids c !! i = Some id -> id = "msg_" +:+ pretty i) /\
  (forall i j idi idj, i < j ->
     sent_ids c !! i = Some idi -> sent_ids c !! j = Some idj ->
     exists ki kj, idi = correlation_id ki /\ idj = correlation_id kj /\ ki < kj) /\
  NoDup (sent_ids c).
Proof.
  intros Hrun.
  assert (Hids : sent_ids c = correlation_id <$> seq 0 (messageId c)).
  { apply (sent_ids_run pr evs init c Hrun). reflexivity. }
  assert (Hnth : forall i id, sent_ids c !! i = Some id -> id = correlation_id i).
  { intros i id H. rewrite Hids, list_lookup_fmap in H.
    destruct (seq 0 (messageId c) !! i) as [k |] eqn:Hk; [| discriminate].
    apply lookup_seq in Hk as [-> _]. injection H as <-. reflexivity. }
  split; [exact Hids |]. split; [exact Hnth |]. split.
  - intros i j idi idj Hlt Hi Hj. exists i, j. auto.
  - rewrite Hids. apply NoDup_fmap_2; [apply correlation_id_inj | apply NoDup_seq].
Qed.

Lemma correlation_ids_unique_witness :
  run Demo.pr init Demo.one_call = Some Demo.after_one_call /\
  sent_ids Demo.after_one_call = ["msg_0"].
Proof.
  assert (H : run Demo.pr init Demo.one_call = Some Demo.after_one_call) by reflexivity.
  split; [exact H |].
  exact (proj1 (correlation_ids_unique Demo.pr Demo.one_call Demo.after_one_call H)).
Defined.

(** C4. Timeout: when the timer of a call fires while the call is still in
    the pending-call table (no response was accepted for it), the client
    rejects that call's promise with the message "Timeout calling <name>",
    which contains the function name and the word timeout; the timer cannot
    fire before 30000 ms have elapsed since the request was sent; every
    other table entry, the other timers and the rest of the state are left
    as they were, and nothing else is logged. *)
Theorem timeout_rejection pr evs c n tm p :
  run pr init evs = Some c ->
  timers c !! n = Some tm ->
  callbacks c !! t_id tm = Some p ->
  (exists args, (t_set tm, request (t_id tm) (t_fn tm) args) ∈ outbox c) /\
  ((now c < t_set tm + 30000)%Z -> step pr c (Fire n) = None) /\
  ((t_set tm + 30000 <= now c)%Z ->
     exists c', step pr c (Fire n) = Some c' /\
       log c' = (log c ++ [(now c, EvReject p ("Timeout calling " +:+ t_fn tm))])%list /\
       callbacks c' = delete (t_id tm) (callbacks c) /\
       (forall id, id <> t_id tm -> callbacks c' !! id = callbacks c !! id) /\
       timers c' = delete n (timers c) /\
       messageId c' = messageId c /\ promises c' = promises c /\
       outbox c' = outbox c /\ now c' = now c) /\
  occurs_in (t_fn tm) (timeout_message (t_fn tm)) /\
  occurs_in "timeout" (lowercase (timeout_message (t_fn tm))).
Proof.
  intros Hrun Hn Hid.
  assert (Hc : consistent c) by (apply (reachable_consistent pr); exists evs; exact Hrun).
  pose proof (list_elem_of_lookup_2 _ _ _ Hn) as Hin.
  destruct (inv_timer c Hc tm Hin) as (_ & _ & Hdelay & Hsent & Hm).
  rewrite Hid in Hm. subst p. unfold timeout_ms in Hdelay.
  split; [exact Hsent |]. split; [| split; [| split]].
  - intros Hearly. simpl. rewrite Hn, Hdelay.
    destruct (decide _) as [Hle | _]; [lia | reflexivity].
  - intros Hdue. simpl. rewrite Hn, Hdelay.
    destruct (decide _) as [_ | Hgt]; [| lia].
    eexists. split; [reflexivity |].
    unfold on_timeout; simpl. rewrite Hid; simpl.
    repeat split; try reflexivity.
    intros id Hne. apply lookup_delete_ne. congruence.
  - exists "Timeout calling ", EmptyString. rewrite append_empty_r. reflexivity.
  - exists EmptyString, (" calling " +:+ lowercase (t_fn tm)). reflexivity.
Qed.

Lemma timeout_rejection_witness :
  run Demo.pr init Demo.one_call_expired = Some Demo.after_expiry /\
  timers Demo.after_expiry !! 0 = Some Demo.the_timer /\
  callbacks Demo.after_expiry !! "msg_0" = Some 0 /\
  (exists c', step Demo.pr Demo.after_expiry (Fire 0) = Some c' /\
     log c' = [(30000%Z, EvReject 0 "Timeout calling initialize")]).
Proof.
  assert (H1 : run Demo.pr init Demo.one_call_expired = Some Demo.after_expiry)
    by reflexivity.
  assert (H2 : timers Demo.after_expiry !! 0 = Some Demo.the_timer) by reflexivity.
  assert (H3 : callbacks Demo.after_expiry !! t_id Demo.the_timer = Some 0)
    by reflexivity.
  split; [exact H1 |]. split; [exact H2 |]. split; [exact H3 |].
  destruct (timeout_rejection Demo.pr Demo.one_call_expired Demo.after_expiry 0
              Demo.the_timer 0 H1 H2 H3) as (_ & _ & Hfire & _).
  destruct Hfire as (c' & Hstep & Hlog & _); [simpl; lia |].
  exists c'. split; [exact Hstep | exact Hlog].
Defined.

(** C9. Unmatched-response safety: a parsed message whose id has no entry
    in the pending-call table leaves the table as it is, settles no promise
    and does not reach the error callback; when it is a response (its type
    is not "SDK_READY"), the whole client state, log included, is left
    unchanged. *)
Theorem unmatched_response_ignored pr c message idv :
  prop message "id" = Some idv ->
  get_callback c (Some idv) = None ->
  callbacks (handleMessage pr (Parsed message) c) = callbacks c /\
  (forall p, settlements p (log (handleMessage pr (Parsed message) c)) =
             settlements p (log c)) /\
  count_effects is_error (log (handleMessage pr (Parsed message) c)) =
    count_effects is_error (log c) /\
  (strict_eq_str (prop message "type") "SDK_READY" = false ->
   handleMessage pr (Parsed message) c = c).
Proof.
  intros Hid Hnone.
  destruct message; try discriminate Hid. simpl. unfold on_message.
  rewrite Hid, Hnone.
  destruct (strict_eq_str _ _).
  - unfold call_onSDKReady. destruct (onSDKReady pr); simpl.
    + repeat split; try discriminate.
      * intros p. rewrite settlements_app. simpl. lia.
      * rewrite count_effects_app. simpl. lia.
    + repeat split; discriminate.
  - destruct (truthy (Some idv)); repeat split.
Qed.

Lemma unmatched_response_ignored_witness :
  prop (obj [("id", Some (JStr "msg_7")); ("data", Some JNull)]) "id" =
    Some (JStr "msg_7") /\
  get_callback Demo.after_one_call (Some (JStr "msg_7")) = None /\
  handleMessage Demo.pr
    (Parsed (obj [("id", Some (JStr "msg_7")); ("data", Some JNull)]))
    Demo.after_one_call = Demo.after_one_call.
Proof.
  assert (H1 : prop (obj [("id", Some (JStr "msg_7")); ("data", Some JNull)]) "id" =
               Some (JStr "msg_7")) by reflexivity.
  assert (H2 : get_callback Demo.after_one_call (Some (JStr "msg_7")) = None)
    by reflexivity.
  split; [exact H1 |]. split; [exact H2 |].
  destruct (unmatched_response_ignored Demo.pr Demo.after_one_call _ _ H1 H2)
    as (_ & _ & _ & Hsame).
  apply Hsame. reflexivity.
Defined.

(** C7, as stated: the readiness callback fires at most once whatever the
    number of Ready Announcements received.  Two announcements delivered to
    a client that was given the callback invoke it twice. *)
Lemma ready_callback_not_one_shot :
  ~ (forall pr evs c, run pr init evs = Some c ->
       count_effects is_ready (log c) <= 1).
Proof.
  intros H.
  specialize (H Demo.pr
    [Deliver (Parsed (Server.ready_announcement Demo.vsdk));
     Deliver (Parsed (Server.ready_announcement Demo.vsdk))] _ eq_refl).
  vm_compute in H. lia.
Qed.

(** C7, amended: the readiness callback fires exactly once for each message
    of type "SDK_READY" that is received (never, when no callback was given);
    so it fires at most once in a session in which at most one announcement
    is received. *)
Theorem ready_callback_per_announcement pr evs c :
  run pr init evs = Some c ->
  count_effects is_ready (log c) = (if onSDKReady pr then announcements evs else 0) /\
  (announcements evs <= 1 -> count_effects is_ready (log c) <= 1).
Proof.
  intros Hrun. pose proof (ready_run pr evs init c Hrun) as H. simpl in H.
  split; [exact H |]. intros Hle. rewrite H. destruct (onSDKReady pr); lia.
Qed.

Lemma ready_callback_per_announcement_witness :
  run Demo.pr init [Deliver (Parsed Server.failure_announcement)] =
    Some (handleMessage Demo.pr (Parsed Server.failure_announcement) init) /\
  count_effects is_ready
    (log (handleMessage Demo.pr (Parsed Server.failure_announcement) init)) = 1.
Proof.
  assert (H : run Demo.pr init [Deliver (Parsed Server.failure_announcement)] =
              Some (handleMessage Demo.pr (Parsed Server.failure_announcement) init))
    by reflexivity.
  split; [exact H |].
  exact (proj1 (ready_callback_per_announcement Demo.pr _ _ H)).
Defined.



(** C10. Discovery failure at the public interface: when the vendor service
    never appears the only message the script posts is the announcement
    [{type: "SDK_READY", error: "VSDK not found"}], which has no [data]; a
    client that receives what was posted calls [onSDKReady] with the empty
    list, once, and does nothing else: the error string is not used,
    [onError] is not called, no promise is settled and the table is left as
    it is.  The announcement posted for a vendor object without any own key
    puts the client in the very same state: the host cannot tell the two
    announcements apart. *)
Theorem discovery_failure_indistinguishable pr c v :
  Server.keys v = [] ->
  let failed := Server.discovery (fun _ => None) 19 in
  let ready := Server.discovery (fun _ => Some v) 0 in
  let c' := receive_all pr (Server.posted failed) c in
  Server.posted failed = [Server.failure_announcement] /\
  prop Server.failure_announcement "data" = None /\
  prop Server.failure_announcement "error" = Some (JStr "VSDK not found") /\
  log c' = (log c ++ if onSDKReady pr then [(now c, EvReady (JArr []))] else [])%list /\
  count_effects is_ready (log c') =
    count_effects is_ready (log c) + (if onSDKReady pr then 1 else 0) /\
  count_effects is_error (log c') = count_effects is_error (log c) /\
  (forall p, settlements p (log c') = settlements p (log c)) /\
  callbacks c' = callbacks c /\ timers c' = timers c /\ outbox c' = outbox c /\
  length (Server.posted ready) = 1 /\
  receive_all pr (Server.posted ready) c = c'.
Proof.
  intros Hkeys failed ready c'.
  assert (Hfailed : Server.posted failed = [Server.failure_announcement]) by reflexivity.
  assert (Hready : Server.posted ready = [Server.ready_announcement v]) by reflexivity.
  assert (Hc' : c' = if onSDKReady pr then emit (EvReady (JArr [])) c else c).
  { unfold c'. rewrite Hfailed. reflexivity. }
  split; [exact Hfailed |]. split; [reflexivity |]. split; [reflexivity |].
  split; [| split; [| split; [| split; [| split; [| split; [| split; [| split]]]]]]].
  - rewrite Hc'. destruct (onSDKReady pr); simpl; [reflexivity |].
    rewrite app_nil_r. reflexivity.
  - rewrite Hc'. destruct (onSDKReady pr); simpl; [| lia].
    rewrite count_effects_app. simpl. lia.
  - rewrite Hc'. destruct (onSDKReady pr); simpl; [| lia].
    rewrite count_effects_app. simpl. lia.
  - intros p. rewrite Hc'. destruct (onSDKReady pr); simpl; [| lia].
    rewrite settlements_app. simpl. lia.
  - rewrite Hc'. destruct (onSDKReady pr); reflexivity.
  - rewrite Hc'. destruct (onSDKReady pr); reflexivity.
  - rewrite Hc'. destruct (onSDKReady pr); reflexivity.
  - rewrite Hready. reflexivity.
  - rewrite Hready, Hc'. unfold Server.ready_announcement. rewrite Hkeys. reflexivity.
Qed.

Lemma discovery_failure_indistinguishable_witness :
  Server.keys Demo.bare = [] /\
  log (receive_all Demo.pr (Server.posted (Server.discovery (fun _ => None) 19))
         Demo.after_two_calls) =
    [(0%Z, EvResolve 0 (Some (JBool true))); (0%Z, EvReady (JArr []))] /\
  receive_all Demo.pr (Server.posted (Server.discovery (fun _ => Some Demo.bare) 0))
    Demo.after_two_calls =
  receive_all Demo.pr (Server.posted (Server.discovery (fun _ => None) 19))
    Demo.after_two_calls.
Proof.
  assert (H : Server.keys Demo.bare = []) by reflexivity.
  split; [exact H |].
  destruct (discovery_failure_indistinguishable Demo.pr Demo.after_two_calls Demo.bare H)
    as (_ & _ & _ & Hlog & _ & _ & _ & _ & _ & _ & _ & Hsame).
  split; [exact Hlog | exact Hsame].
Defined.

(** C2. Happy-path round trip: a call issued on an attached WebView posts
    the request [{id, functionName, args}] under a fresh id and enters the
    pending-call table; a ready server whose vendor object has a function
    of that name, returning [result] on these arguments, answers the
    request by posting [{id, data: result}], and nothing else; a client in
    which the call is still pending, receiving what the server posted,
    resolves the promise of that call with exactly [result] and removes the
    entry, with no other effect. *)
Theorem happy_path_round_trip pr pg vsdk s c0 c fn args f result :
  webViewRef c0 = true ->
  Server.sdkReady s = true ->
  Server.function_of vsdk fn = Some f ->
  f args = Server.Returns result ->
  callbacks c !! correlation_id (messageId c0) = Some (promises c0) ->
  let id := correlation_id (messageId c0) in
  let response := obj [("id", Some (JStr id)); ("data", result)] in
  let served := Server.handleMessage pg vsdk (Server.Parsed (request id fn args)) s in
  let c' := handleMessage pr (Parsed response) c in
  outbox (callFunction fn args c0) = (outbox c0 ++ [(now c0, request id fn args)])%list /\
  callbacks (callFunction fn args c0) !! id = Some (promises c0) /\
  Server.posted (fst served) = (Server.posted s ++ [response])%list /\
  snd served = Server.Fulfilled /\
  log c' = (log c ++ [(now c, EvResolve (promises c0) result)])%list /\
  settlements (promises c0) (log c') = settlements (promises c0) (log c) + 1 /\
  callbacks c' = delete id (callbacks c) /\
  prop response "data" = result.
Proof.
  intros Hattached Hready Hfunction Hf Hpending id response served c'.
  assert (Hserved : served = (Server.post response s, Server.Fulfilled)).
  { unfold served, Server.handleMessage, Server.try_block, request, obj. simpl.
    rewrite Hready. simpl. rewrite Hfunction. simpl. rewrite Hf. reflexivity. }
  assert (Hc' : c' = emit (EvResolve (promises c0) result)
                       (set_callbacks (delete id (callbacks c)) c)).
  { unfold c', response, obj. destruct result as [r |]; simpl; unfold on_message; simpl;
      unfold id; rewrite Hpending; reflexivity. }
  split; [| split; [| split; [| split; [| split; [| split; [| split]]]]]].
  - unfold callFunction. rewrite Hattached. reflexivity.
  - unfold callFunction. rewrite Hattached. simpl. apply lookup_insert_eq.
  - rewrite Hserved. reflexivity.
  - rewrite Hserved. reflexivity.
  - rewrite Hc'. reflexivity.
  - rewrite Hc'. simpl. rewrite settlements_app. simpl. rewrite Nat.eqb_refl. lia.
  - rewrite Hc'. reflexivity.
  - unfold response, obj. destruct result; reflexivity.
Qed.

Lemma happy_path_round_trip_witness :
  webViewRef Demo.after_expiry = true /\
  Server.sdkReady Demo.ready_server = true /\
  Server.function_of Demo.vsdk "checkout" = Some (fun args => Server.Returns (Some (JArr args))) /\
  callbacks (callFunction "checkout" [JStr "card_1"] Demo.after_expiry) !! "msg_1" = Some 1 /\
  Server.posted
    (fst (Server.handleMessage Demo.page Demo.vsdk
            (Server.Parsed (request "msg_1" "checkout" [JStr "card_1"])) Demo.ready_server)) =
    [Server.ready_announcement Demo.vsdk;
     obj [("id", Some (JStr "msg_1")); ("data", Some (JArr [JStr "card_1"]))]] /\
  log (handleMessage Demo.pr
         (Parsed (obj [("id", Some (JStr "msg_1")); ("data", Some (JArr [JStr "card_1"]))]))
         (callFunction "checkout" [JStr "card_1"] Demo.after_expiry)) =
    [(30000%Z, EvResolve 1 (Some (JArr [JStr "card_1"])))].
Proof.
  assert (H1 : webViewRef Demo.after_expiry = true) by reflexivity.
  assert (H2 : Server.sdkReady Demo.ready_server = true) by reflexivity.
  assert (H3 : Server.function_of Demo.vsdk "checkout" =
               Some (fun args => Server.Returns (Some (JArr args)))) by reflexivity.
  assert (H4 : (fun args => Server.Returns (Some (JArr args))) [JStr "card_1"] =
               Server.Returns (Some (JArr [JStr "card_1"]))) by reflexivity.
  assert (H5 : callbacks (callFunction "checkout" [JStr "card_1"] Demo.after_expiry)
                 !! correlation_id (messageId Demo.after_expiry) =
               Some (promises Demo.after_expiry)) by reflexivity.
  split; [exact H1 |]. split; [exact H2 |]. split; [exact H3 |]. split; [exact H5 |].
  destruct (happy_path_round_trip Demo.pr Demo.page Demo.vsdk Demo.ready_server
              Demo.after_expiry (callFunction "checkout" [JStr "card_1"] Demo.after_expiry)
              "checkout" [JStr "card_1"] _ _ H1 H2 H3 H4 H5)
    as (_ & _ & Hposted & _ & Hlog & _).
  split; [exact Hposted | exact Hlog].
Defined.

(** C5. Function not found, on the code: a request for [doesNotExist] sent
    to a ready server whose vendor object has [initialize], [getCards] and
    [checkout] raises the not-found error inside the [try] block, but the
    [catch] block reads the identifier [message], which is not in scope
    there: the handler ends with an unhandled ReferenceError and posts
    nothing.  The client never receives [{id, error}]; the call ends by the
    30 s timeout, with a message that lists no method name. *)
Theorem not_found_response_never_posted :
  Server.try_block Demo.page Demo.vsdk Demo.ready_server
    (Server.Parsed (request "msg_0" "doesNotExist" [])) =
    inl (Server.ErrorObj "Error"
           "Function doesNotExist not found. Available: initialize, getCards, checkout") /\
  Server.handleMessage Demo.page Demo.vsdk
    (Server.Parsed (request "msg_0" "doesNotExist" [])) Demo.ready_server =
    (Demo.ready_server,
     Server.Rejected (Server.ErrorObj "ReferenceError" "message is not defined")) /\
  log <$> run Demo.pr init
            [Attach true; Call "doesNotExist" []; Elapse 30000; Fire 0] =
    Some [(30000%Z, EvReject 0 "Timeout calling doesNotExist")].
Proof. repeat split. Qed.

(** C6. Vendor function raising, on the code: [getCards] raises an error
    whose message is "card lookup failed"; the [catch] block again fails on
    the identifier [message] before it reads the exception, so nothing is
    posted and the vendor's message never reaches the client, whose call
    ends by the 30 s timeout.  On a page without a global [message] this is
    so for every exception. *)
Theorem invocation_error_never_posted :
  (forall txt error s,
     Server.catch_block
       {| Server.global_message := None; Server.engine_text := txt |} error s =
     (s, Server.Rejected (Server.ErrorObj "ReferenceError" "message is not defined"))) /\
  Server.try_block Demo.page Demo.vsdk Demo.ready_server
    (Server.Parsed (request "msg_0" "getCards" [])) =
    inl (Server.ErrorObj "Error" "card lookup failed") /\
  Server.handleMessage Demo.page Demo.vsdk
    (Server.Parsed (request "msg_0" "getCards" [])) Demo.ready_server =
    (Demo.ready_server,
     Server.Rejected (Server.ErrorObj "ReferenceError" "message is not defined")) /\
  log <$> run Demo.pr init
            [Attach true; Call "getCards" []; Elapse 30000; Fire 0] =
    Some [(30000%Z, EvReject 0 "Timeout calling getCards")].
Proof. repeat split. Qed.

(** * Further properties of the client *)

Module ClientExtras.
Import Ledger.
Local Open Scope nat_scope.

(** A call made while the WebView reference is not attached is rejected on
    the spot with "WebView not ready": it takes no correlation id, posts
    nothing, arms no timer and leaves the pending-call table alone; the next
    call made once the WebView is attached gets the id the rejected call
    would have got. *)
Theorem detached_call_rejected pr fn args fn' args' c :
  webViewRef c = false ->
  log (callFunction fn args c) =
    (log c ++ [(now c, EvReject (promises c) "WebView not ready")])%list /\
  messageId (callFunction fn args c) = messageId c /\
  callbacks (callFunction fn args c) = callbacks c /\
  timers (callFunction fn args c) = timers c /\
  outbox (callFunction fn args c) = outbox c /\
  exists c', run pr c [Call fn args; Attach true; Call fn' args'] = Some c' /\
    outbox c' = (outbox c ++ [(now c, request (correlation_id (messageId c)) fn' args')])%list /\
    log c' = log (callFunction fn args c).
Proof.
  intros Hdetached. unfold callFunction at 1 2 3 4 5. rewrite Hdetached. simpl.
  repeat split. eexists. split; [reflexivity |].
  unfold callFunction. rewrite Hdetached. simpl. split; reflexivity.
Qed.

Lemma detached_call_rejected_witness :
  webViewRef init = false /\
  log (callFunction "initialize" [] init) = [(0%Z, EvReject 0 "WebView not ready")].
Proof.
  assert (H : webViewRef init = false) by reflexivity.
  split; [exact H |].
  exact (proj1 (detached_call_rejected Demo.pr "initialize" [] "getCards" [] init H)).
Defined.

(** A response to a pending call is an error or a success according to the
    truthiness of its [error] field.  A truthy [error] that has a string
    form rejects the call with that string, whatever [data] holds; in
    particular a non-empty string rejects with itself.  A truthy [error]
    without a string form (an object with a key [toString], or an array
    holding one) makes [new Error] raise: the call is settled by neither
    continuation and the exception goes to [onError].  An absent, null,
    false, zero or empty-string [error] resolves the call with [data].  In
    every case the entry is removed, and the timers and the requests sent
    are left as they are. *)
Theorem response_settles_by_error pr c message id p :
  prop message "id" = Some (JStr id) ->
  id <> EmptyString ->
  strict_eq_str (prop message "type") "SDK_READY" = false ->
  callbacks c !! id = Some p ->
  let c' := handleMessage pr (Parsed message) c in
  callbacks c' = delete id (callbacks c) /\
  timers c' = timers c /\ outbox c' = outbox c /\
  log c' =
    (log c ++
     if truthy (prop message "error") then
       match String_ (prop message "error") with
       | Some text => [(now c, EvReject p text)]
       | None => if onError pr then [(now c, EvError NoPrimitive)] else []
       end
     else [(now c, EvResolve p (prop message "data"))])%list /\
  (forall text, prop message "error" = Some (JStr text) -> text <> EmptyString ->
     log c' = (log c ++ [(now c, EvReject p text)])%list).
Proof.
  intros Hid Hne Htype Hpending c'.
  assert (Hc' : c' = on_message pr message c).
  { unfold c'. destruct message; try discriminate Hid. reflexivity. }
  assert (Hlog : log c' =
    (log c ++
     if truthy (prop message "error") then
       match String_ (prop message "error") with
       | Some text => [(now c, EvReject p text)]
       | None => if onError pr then [(now c, EvError NoPrimitive)] else []
       end
     else [(now c, EvResolve p (prop message "data"))])%list).
  { rewrite Hc'. unfold on_message. rewrite Htype, Hid.
    cbn [truthy get_callback delete_callback].
    destruct (String.eqb_spec id EmptyString) as [-> | _]; [contradiction |].
    cbn [negb]. rewrite Hpending. unfold call_onError.
    destruct (truthy _); [destruct (String_ _) |]; try destruct (onError pr); simpl;
      rewrite ?app_nil_r; reflexivity. }
  split; [| split; [| split; [| split]]].
  - rewrite Hc'. unfold on_message. rewrite Htype, Hid.
    cbn [truthy get_callback delete_callback].
    destruct (String.eqb_spec id EmptyString) as [-> | _]; [contradiction |].
    cbn [negb]. rewrite Hpending. unfold call_onError.
    destruct (truthy _); [destruct (String_ _) |]; try destruct (onError pr); reflexivity.
  - rewrite Hc'. apply on_message_frame.
  - rewrite Hc'. apply on_message_frame.
  - exact Hlog.
  - intros text Herror Htext. rewrite Hlog, Herror. cbn [truthy String_ to_string].
    destruct (String.eqb_spec text EmptyString) as [-> | _]; [contradiction |].
    reflexivity.
Qed.

Lemma response_settles_by_error_witness :
  callbacks Demo.after_two_calls !! "msg_1" = Some 1 /\
  callbacks (handleMessage Demo.pr (Parsed Demo.second_answer) Demo.after_two_calls) = ∅ /\
  log (handleMessage Demo.pr (Parsed Demo.second_answer) Demo.after_two_calls) =
    [(0%Z, EvResolve 0 (Some (JBool true))); (0%Z, EvReject 1 "declined")].
Proof.
  assert (H : callbacks Demo.after_two_calls !! "msg_1" = Some 1) by reflexivity.
  split; [exact H |].
  destruct (response_settles_by_error Demo.pr Demo.after_two_calls Demo.second_answer
              "msg_1" 1 eq_refl ltac:(discriminate) eq_refl H)
    as (Htable & _ & _ & _ & Hstring).
  split; [rewrite Htable; reflexivity |].
  apply (Hstring "declined"); [reflexivity | discriminate].
Defined.



Lemma routing_call_onError pr e c :
  count_effects is_error (log (call_onError pr e c)) =
    count_effects is_error (log c) + (if onError pr then 1 else 0) /\
  settled_total (log (call_onError pr e c)) = settled_total (log c) /\
  callbacks (call_onError pr e c) = callbacks c.
Proof.
  unfold call_onError, settled_total. destruct (onError pr); simpl;
    rewrite ?count_effects_app; simpl; repeat split; lia.
Qed.

Lemma routing_on_message pr message c :
  count_effects is_error (log (on_message pr message c)) =
    count_effects is_error (log c) +
    (if onError pr && abandons c (Parsed message) then 1 else 0) /\
  settled_total (log (on_message pr message c)) <=
    settled_total (log c) + (if abandons c (Parsed message) then 0 else 1) /\
  (abandons c (Parsed message) = true ->
   S (size (callbacks (on_message pr message c))) = size (callbacks c)).
Proof.
  unfold on_message, abandons, convertible_error, call_onSDKReady, call_onError,
    settled_total.
  destruct (strict_eq_str _ _); cbn [negb andb].
  { rewrite andb_false_r. destruct (onSDKReady pr); simpl;
      rewrite ?count_effects_app; simpl; repeat split; try lia; discriminate. }
  destruct (truthy (prop message "id")); cbn [andb];
    [| rewrite andb_false_r; repeat split; try lia; discriminate].
  destruct (get_callback c _) as [q |] eqn:Hget; cbn [andb];
    [| rewrite andb_false_r; repeat split; try lia; discriminate].
  apply get_callback_Some in Hget as (id & -> & Hid).
  cbn [delete_callback].
  destruct (truthy (prop message "error")); cbn [andb].
  - destruct (String_ (prop message "error")); cbn [negb].
    + rewrite andb_false_r. simpl. rewrite !count_effects_app. simpl.
      repeat split; try lia; discriminate.
    + rewrite andb_true_r.
      assert (Hsize : S (size (delete id (callbacks c))) = size (callbacks c)).
      { rewrite map_size_delete, Hid.
        assert (size (callbacks c) <> 0); [| simpl; lia].
        apply map_size_ne_0_lookup. exists id. rewrite Hid. eauto. }
      destruct (onError pr); simpl; rewrite ?count_effects_app; simpl;
        repeat split; try lia; intros _; exact Hsize.
  - rewrite andb_false_r. simpl. rewrite !count_effects_app. simpl.
    repeat split; try lia; discriminate.
Qed.

(** Routing of channel errors: [handleMessage] calls [onError] exactly when
    its [try] block raises (and the callback was given), that is when the
    payload does not parse or is [null], or when it answers a pending call
    with a truthy [error] that has no string form.  In none of these cases
    is a promise settled; the first two leave the table as it is, the third
    removes the entry of the call.  Any message settles at most one promise,
    and the timers are never touched. *)
Theorem error_callback_routing pr raw c :
  let c' := handleMessage pr raw c in
  count_effects is_error (log c') =
    count_effects is_error (log c) +
    (if onError pr && (unreadable raw || abandons c raw) then 1 else 0) /\
  settled_total (log c') <=
    settled_total (log c) + (if unreadable raw || abandons c raw then 0 else 1) /\
  timers c' = timers c /\
  (unreadable raw = true -> callbacks c' = callbacks c) /\
  (abandons c raw = true -> S (size (callbacks c')) = size (callbacks c)).
Proof.
  intros c'.
  assert (Htimers : timers c' = timers c) by apply handleMessage_frame.
  unfold c' in *. clear c'.
  destruct raw as [| message].
  - destruct (routing_call_onError pr SyntaxError c) as (H1 & H2 & H3).
    cbn [handleMessage unreadable orb]. rewrite andb_true_r.
    split; [exact H1 |]. split; [lia |]. split; [exact Htimers |].
    split; [intros _; exact H3 | discriminate].
  - destruct (routing_on_message pr message c) as (H1 & H2 & H3).
    destruct message as [| b | n | s | items | fields];
      cbn [handleMessage unreadable orb];
      try (split; [exact H1 |]; split; [exact H2 |]; split; [exact Htimers |];
           split; [discriminate | exact H3]).
    destruct (routing_call_onError pr TypeError c) as (H1' & H2' & H3').
    rewrite andb_true_r.
    split; [exact H1' |]. split; [lia |]. split; [exact Htimers |].
    split; [intros _; exact H3' | discriminate].
Qed.

Lemma error_callback_routing_witness :
  abandons Demo.after_one_call (Parsed Demo.unconvertible) = true /\
  log (handleMessage Demo.pr (Parsed Demo.unconvertible) Demo.after_one_call) =
    [(0%Z, EvError NoPrimitive)] /\
  size (callbacks (handleMessage Demo.pr (Parsed Demo.unconvertible) Demo.after_one_call)) = 0.
Proof.
  assert (H : abandons Demo.after_one_call (Parsed Demo.unconvertible) = true) by reflexivity.
  split; [exact H |]. split; [reflexivity |].
  destruct (error_callback_routing Demo.pr (Parsed Demo.unconvertible) Demo.after_one_call)
    as (_ & _ & _ & _ & Hsize).
  specialize (Hsize H). change (size (callbacks Demo.after_one_call)) with 1 in Hsize.
  lia.
Defined.

Lemma success_response_settles pr c id data p :
  id <> EmptyString -> callbacks c !! id = Some p ->
  handleMessage pr (Parsed (success_response id data)) c =
    emit (EvResolve p data) (set_callbacks (delete id (callbacks c)) c).
Proof.
  intros Hne Hp.
  destruct data; simpl; unfold on_message; simpl;
    (destruct (String.eqb_spec id EmptyString) as [-> | _]; [contradiction |]);
    simpl; rewrite Hp; reflexivity.
Qed.

Lemma success_response_dropped pr c id data :
  callbacks c !! id = None ->
  handleMessage pr (Parsed (success_response id data)) c = c.
Proof.
  intros Hnone. destruct data; simpl; unfold on_message; simpl; rewrite Hnone;
    destruct (negb _); reflexivity.
Qed.

(** Out-of-order responses: when two calls are pending, their responses may
    arrive in either order; each resolves the promise of its own call with
    its own data, and the table ends without the two entries in both
    orders. *)
Theorem responses_in_any_order pr c id1 id2 d1 d2 p1 p2 :
  id1 <> EmptyString -> id2 <> EmptyString -> id1 <> id2 ->
  callbacks c !! id1 = Some p1 -> callbacks c !! id2 = Some p2 ->
  let r1 := Parsed (success_response id1 d1) in
  let r2 := Parsed (success_response id2 d2) in
  log (handleMessage pr r1 (handleMessage pr r2 c)) =
    (log c ++ [(now c, EvResolve p2 d2); (now c, EvResolve p1 d1)])%list /\
  log (handleMessage pr r2 (handleMessage pr r1 c)) =
    (log c ++ [(now c, EvResolve p1 d1); (now c, EvResolve p2 d2)])%list /\
  callbacks (handleMessage pr r1 (handleMessage pr r2 c)) =
    delete id1 (delete id2 (callbacks c)) /\
  callbacks (handleMessage pr r2 (handleMessage pr r1 c)) =
    delete id1 (delete id2 (callbacks c)) /\
  timers (handleMessage pr r1 (handleMessage pr r2 c)) = timers c.
Proof.
  intros Hne1 Hne2 Hdiff Hp1 Hp2 r1 r2. unfold r1, r2.
  rewrite (success_response_settles pr c id2 d2 p2 Hne2 Hp2).
  rewrite (success_response_settles pr c id1 d1 p1 Hne1 Hp1).
  rewrite (success_response_settles pr _ id1 d1 p1 Hne1);
    [| simpl; rewrite lookup_delete_ne by congruence; exact Hp1].
  rewrite (success_response_settles pr _ id2 d2 p2 Hne2);
    [| simpl; rewrite lookup_delete_ne by congruence; exact Hp2].
  simpl. rewrite <- !app_assoc. simpl.
  repeat split. apply delete_delete.
Qed.

Lemma responses_in_any_order_witness :
  callbacks (callFunction "getCards" [] Demo.after_one_call) !! "msg_0" = Some 0 /\
  callbacks (callFunction "getCards" [] Demo.after_one_call) !! "msg_1" = Some 1 /\
  log (handleMessage Demo.pr (Parsed (success_response "msg_0" None))
         (handleMessage Demo.pr (Parsed (success_response "msg_1" (Some JNull)))
            (callFunction "getCards" [] Demo.after_one_call))) =
    [(0%Z, EvResolve 1 (Some JNull)); (0%Z, EvResolve 0 None)].
Proof.
  assert (H0 : callbacks (callFunction "getCards" [] Demo.after_one_call) !! "msg_0" = Some 0)
    by reflexivity.
  assert (H1 : callbacks (callFunction "getCards" [] Demo.after_one_call) !! "msg_1" = Some 1)
    by reflexivity.
  split; [exact H0 |]. split; [exact H1 |].
  apply (responses_in_any_order Demo.pr (callFunction "getCards" [] Demo.after_one_call)
           "msg_0" "msg_1" None (Some JNull) 0 1);
    [discriminate | discriminate | discriminate | exact H0 | exact H1].
Defined.

(** The race between a response and the timer of the same call is decided
    by arrival order.  If the timer fires first, the call is rejected with
    the timeout message and the late response changes nothing.  If the
    response is handled first, the call is resolved with its data and the
    timer, when it fires, only disappears. *)
Theorem race_first_wins pr c n tm p data :
  timers c !! n = Some tm ->
  callbacks c !! t_id tm = Some p ->
  t_id tm <> EmptyString ->
  (t_set tm + t_delay tm <= now c)%Z ->
  let response := Parsed (success_response (t_id tm) data) in
  (exists c1, step pr c (Fire n) = Some c1 /\
     log c1 = (log c ++ [(now c, EvReject (t_reject tm) (timeout_message (t_fn tm)))])%list /\
     handleMessage pr response c1 = c1) /\
  log (handleMessage pr response c) = (log c ++ [(now c, EvResolve p data)])%list /\
  step pr (handleMessage pr response c) (Fire n) =
    Some (set_timers (delete n (timers c)) (handleMessage pr response c)).
Proof.
  intros Hn Hp Hne Hdue response. unfold response. split; [| split].
  - simpl. rewrite Hn. destruct (decide _) as [_ | Hlate]; [| contradiction].
    eexists. split; [reflexivity |]. unfold on_timeout. simpl. rewrite Hp. simpl.
    split; [reflexivity |].
    apply success_response_dropped. simpl. apply lookup_delete_eq.
  - rewrite (success_response_settles pr c _ data p Hne Hp). reflexivity.
  - rewrite (success_response_settles pr c _ data p Hne Hp). simpl. rewrite Hn.
    destruct (decide _) as [_ | Hlate]; [| contradiction].
    unfold on_timeout. simpl. rewrite lookup_delete_eq. reflexivity.
Qed.

Lemma race_first_wins_witness :
  timers Demo.after_expiry !! 0 = Some Demo.the_timer /\
  callbacks Demo.after_expiry !! "msg_0" = Some 0 /\
  log (handleMessage Demo.pr (Parsed (success_response "msg_0" (Some (JBool true))))
         Demo.after_expiry) =
    [(30000%Z, EvResolve 0 (Some (JBool true)))].
Proof.
  assert (H1 : timers Demo.after_expiry !! 0 = Some Demo.the_timer) by reflexivity.
  assert (H2 : callbacks Demo.after_expiry !! t_id Demo.the_timer = Some 0) by reflexivity.
  assert (H3 : t_id Demo.the_timer <> EmptyString) by discriminate.
  assert (H4 : (t_set Demo.the_timer + t_delay Demo.the_timer <= now Demo.after_expiry)%Z)
    by (simpl; unfold timeout_ms; lia).
  split; [exact H1 |]. split; [exact H2 |].
  exact (proj1 (proj2 (race_first_wins Demo.pr Demo.after_expiry 0 Demo.the_timer 0
                         (Some (JBool true)) H1 H2 H3 H4))).
Defined.

Lemma ledger_emit_settle c m e :
  is_settlement e = true ->
  settled_total (log (emit e (set_callbacks m c))) = S (settled_total (log c)).
Proof.
  intros He. unfold settled_total. simpl. rewrite count_effects_app. simpl.
  rewrite He. lia.
Qed.

Lemma ledger_emit_other c e :
  is_settlement e = false -> settled_total (log (emit e c)) = settled_total (log c).
Proof.
  intros He. unfold settled_total. simpl. rewrite count_effects_app. simpl.
  rewrite He. lia.
Qed.

Lemma size_delete_pending (m : gmap string promise) id p :
  m !! id = Some p -> S (size (delete id m)) = size m.
Proof.
  intros H. rewrite map_size_delete, H.
  assert (size m <> 0); [| simpl; lia].
  apply map_size_ne_0_lookup. exists id. rewrite H. eauto.
Qed.

Lemma ledger_on_message pr message c :
  exists lost,
    (convertible_error message = true -> lost = 0) /\
    settled_total (log (on_message pr message c)) +
      size (callbacks (on_message pr message c)) + lost =
    settled_total (log c) + size (callbacks c).
Proof.
  unfold on_message, call_onSDKReady, call_onError, convertible_error.
  destruct (strict_eq_str _ _).
  { exists 0. split; [reflexivity |].
    destruct (onSDKReady pr); [| lia]. rewrite ledger_emit_other by reflexivity.
    simpl. lia. }
  destruct (truthy (prop message "id")); [| exists 0; split; [reflexivity | lia]].
  destruct (get_callback c _) as [p |] eqn:Hget; [| exists 0; split; [reflexivity | lia]].
  apply get_callback_Some in Hget as (id & -> & Hid).
  pose proof (size_delete_pending _ _ _ Hid) as Hsize.
  cbn [delete_callback].
  destruct (truthy (prop message "error")).
  - destruct (String_ (prop message "error")).
    + exists 0. split; [reflexivity |]. rewrite ledger_emit_settle by reflexivity.
      simpl. lia.
    + exists 1. split; [discriminate |].
      destruct (onError pr); [rewrite ledger_emit_other by reflexivity |]; simpl; lia.
  - exists 0. split; [reflexivity |]. rewrite ledger_emit_settle by reflexivity.
    simpl. lia.
Qed.

Lemma ledger_step pr c e c' :
  consistent c -> step pr c e = Some c' ->
  exists lost,
    (conforming e = true -> lost = 0) /\
    settled_total (log c') + size (callbacks c') + lost + promises c =
    settled_total (log c) + size (callbacks c) + promises c'.
Proof.
  intros Hc Hstep. destruct e as [b | fn args | raw | dt | n]; simpl in Hstep.
  - injection Hstep as <-. exists 0. split; [reflexivity |]. simpl. lia.
  - injection Hstep as <-. exists 0. split; [reflexivity |]. unfold callFunction.
    destruct (webViewRef c); cbn [negb].
    + simpl. rewrite map_size_insert_None by apply (fresh_id c Hc). lia.
    + unfold settled_total in *. simpl. rewrite count_effects_app. simpl. lia.
  - injection Hstep as <-.
    assert (Herr : forall x, exists lost,
      (conforming (Deliver raw) = true -> lost = 0) /\
      settled_total (log (call_onError pr x c)) + size (callbacks (call_onError pr x c)) +
        lost + promises c =
      settled_total (log c) + size (callbacks c) + promises (call_onError pr x c)).
    { intros x. exists 0. split; [reflexivity |]. unfold call_onError.
      destruct (onError pr); [rewrite ledger_emit_other by reflexivity |]; simpl; lia. }
    destruct raw as [| message]; [apply Herr |].
    destruct (ledger_on_message pr message c) as (lost & Hlost & Heq).
    destruct (on_message_frame pr message c) as (_ & Hp & _).
    destruct message; try (exists lost; split; [exact Hlost |]; simpl; lia).
    apply Herr.
  - injection Hstep as <-. exists 0. split; [reflexivity |]. simpl. lia.
  - destruct (timers c !! n) as [tm |]; [| discriminate].
    destruct (decide _); [| discriminate]. injection Hstep as <-.
    exists 0. split; [reflexivity |].
    unfold on_timeout. simpl.
    destruct (callbacks c !! t_id tm) as [q |] eqn:Hq; [| simpl; lia].
    pose proof (size_delete_pending _ _ _ Hq) as Hsize.
    unfold settled_total in *. simpl. rewrite count_effects_app. simpl. lia.
Qed.

Lemma ledger_run pr evs : forall c c',
  consistent c -> run pr c evs = Some c' ->
  exists lost,
    (forallb conforming evs = true -> lost = 0) /\
    settled_total (log c') + size (callbacks c') + lost + promises c =
    settled_total (log c) + size (callbacks c) + promises c'.
Proof.
  induction evs as [| e evs IH]; simpl; intros c c' Hc.
  - intros [= <-]. exists 0. split; [reflexivity | lia].
  - destruct (step pr c e) as [c1 |] eqn:Hs; [| discriminate].
    intros Hrun.
    destruct (ledger_step pr c e c1 Hc Hs) as (l1 & Hl1 & Heq1).
    destruct (IH c1 c' (consistent_step pr c e c1 Hc Hs) Hrun) as (l2 & Hl2 & Heq2).
    exists (l1 + l2). split; [| lia].
    intros [He Hrest]%andb_prop. rewrite (Hl1 He), (Hl2 Hrest). reflexivity.
Qed.

(** The ledger of promises: in every state the client can reach, the
    settlements performed so far and the entries of the pending-call table
    never exceed the promises handed out by [callFunction], and they add up
    to exactly that number, no promise being lost, when every response
    received had an [error] with a string form; and the table holds no
    entry once no timer is armed any more. *)
Theorem no_promise_lost pr evs c :
  run pr init evs = Some c ->
  settled_total (log c) + size (callbacks c) <= promises c /\
  (forallb conforming evs = true ->
   promises c = settled_total (log c) + size (callbacks c)) /\
  (timers c = [] -> callbacks c = ∅).
Proof.
  intros Hrun.
  destruct (ledger_run pr evs init c consistent_init Hrun) as (lost & Hlost & Heq).
  change (promises init) with 0 in Heq. change (log init) with (@nil (Z * effect)) in Heq.
  change (callbacks init) with (∅ : gmap string promise) in Heq.
  rewrite map_size_empty in Heq. simpl in Heq.
  split; [lia |]. split.
  - intros Hconf. rewrite (Hlost Hconf) in Heq. lia.
  - intros Hnone. apply map_empty. intros id.
    destruct (callbacks c !! id) as [p |] eqn:Hid; [| reflexivity].
    assert (Hc : consistent c) by (apply (reachable_consistent pr); exists evs; exact Hrun).
    destruct (inv_pending c Hc id p Hid) as (_ & tm & Hin & _).
    rewrite Hnone in Hin. apply not_elem_of_nil in Hin. contradiction.
Qed.

Lemma no_promise_lost_witness :
  run Demo.pr init Demo.two_calls = Some Demo.after_two_calls /\
  forallb conforming Demo.two_calls = true /\
  promises Demo.after_two_calls = 2 /\
  settled_total (log Demo.after_two_calls) = 1 /\
  size (callbacks Demo.after_two_calls) = 1.
Proof.
  assert (H : run Demo.pr init Demo.two_calls = Some Demo.after_two_calls) by reflexivity.
  assert (Hconf : forallb conforming Demo.two_calls = true) by reflexivity.
  split; [exact H |]. split; [exact Hconf |].
  destruct (no_promise_lost Demo.pr Demo.two_calls Demo.after_two_calls H) as (_ & Heq & _).
  specialize (Heq Hconf).
  assert (Hs : settled_total (log Demo.after_two_calls) = 1) by reflexivity.
  assert (Hp : promises Demo.after_two_calls = 2) by reflexivity.
  split; [exact Hp |]. split; [exact Hs |]. lia.
Defined.

End ClientExtras.

(** * Further properties of the injected script *)

Module ServerExtras.
Import Stages.
Local Open Scope nat_scope.

Lemma poll_time_S k :
  (poll_time k + Server.poll_ms)%Z = poll_time (S k).
Proof. unfold poll_time, Server.poll_ms. lia. Qed.

Lemma polls_snoc k :
  ((poll_time <$> seq 0 k) ++ [poll_time k])%list = poll_time <$> seq 0 (S k).
Proof. rewrite seq_S, fmap_app. reflexivity. Qed.

Lemma discovery_S world n :
  Server.discovery world (S n) = Server.tick world (Server.discovery world n).
Proof. reflexivity. Qed.

Lemma discovery_searching world k :
  S k < Server.maxAttempts ->
  (forall i, i <= k -> world (poll_time i) = None) ->
  Server.discovery world k = searching k.
Proof.
  induction k as [| k IH]; intros Hlt Hnone.
  - pose proof (Hnone 0 (le_n 0)) as H0. change (poll_time 0) with 0%Z in H0.
    unfold Server.discovery, Server.boot, Server.checkSDK. simpl.
    rewrite H0. reflexivity.
  - rewrite discovery_S, IH; [| lia | auto with arith].
    unfold Server.tick.
    cbn [searching Server.checkAttempts Server.sdkReady Server.listeners Server.posted
         Server.retry Server.clock Server.polls].
    rewrite (Hnone (S k) (le_n _)). unfold Server.checkSDK.
    cbn [Server.checkAttempts Server.sdkReady Server.listeners Server.posted
         Server.retry Server.clock Server.polls].
    destruct (Nat.ltb_spec (S (S k)) Server.maxAttempts) as [_ | Hge]; [| lia].
    rewrite polls_snoc, poll_time_S. reflexivity.
Qed.

Lemma discovery_found world k v :
  k < 20 ->
  (forall i, i < k -> world (poll_time i) = None) ->
  world (poll_time k) = Some v ->
  Server.discovery world k = found k v.
Proof.
  intros Hk Hnone Hv. destruct k as [| k].
  - change (poll_time 0) with 0%Z in Hv.
    unfold Server.discovery, Server.boot, Server.checkSDK. simpl.
    rewrite Hv. reflexivity.
  - rewrite discovery_S.
    rewrite (discovery_searching world k); [| unfold Server.maxAttempts; lia | auto with arith].
    unfold Server.tick.
    cbn [searching Server.checkAttempts Server.sdkReady Server.listeners Server.posted
         Server.retry Server.clock Server.polls].
    rewrite Hv.
    unfold Server.checkSDK, Server.setupListeners, Server.post.
    cbn [found Server.checkAttempts Server.sdkReady Server.listeners Server.posted
         Server.retry Server.clock Server.polls].
    rewrite polls_snoc. reflexivity.
Qed.

Lemma discovery_found_stays world k v more :
  k < 20 ->
  (forall i, i < k -> world (poll_time i) = None) ->
  world (poll_time k) = Some v ->
  Server.discovery world (k + more) = found k v.
Proof.
  intros Hk Hnone Hv. pose proof (discovery_found world k v Hk Hnone Hv) as Hfound.
  rewrite discovery_stable; [exact Hfound | rewrite Hfound; reflexivity].
Qed.

(** Discovery succeeds at the first check that sees the vendor object: when
    the object is absent at the checks of rank 0 .. k-1 and present at the
    check of rank [k] (one of the 20), the loop stops there, after k+1 checks
    and at 500*k ms, having posted the readiness announcement with that
    object's method names and then attached the document and the window
    listener; nothing changes afterwards. *)
Theorem discovery_success world k v more :
  k < 20 ->
  (forall i, i < k -> world (poll_time i) = None) ->
  world (poll_time k) = Some v ->
  Server.discovery world (k + more) = found k v /\
  Server.posted (found k v) = [Server.ready_announcement v] /\
  Server.listeners (found k v) = [Server.DocumentMessage; Server.WindowMessage] /\
  Server.checkAttempts (found k v) = S k /\
  Server.clock (found k v) = (500 * Z.of_nat k)%Z.
Proof.
  intros Hk Hnone Hv. split; [| repeat split].
  apply discovery_found_stays; assumption.
Qed.

Lemma discovery_success_witness :
  2 < 20 /\
  Server.discovery
    (fun t => if (t <? 1000)%Z then None else Some Demo.vsdk) (2 + 5) =
  found 2 Demo.vsdk.
Proof.
  assert (H : 2 < 20) by lia.
  split; [exact H |].
  apply (discovery_success (fun t => if (t <? 1000)%Z then None else Some Demo.vsdk)
           2 Demo.vsdk 5 H).
  - intros i Hi. destruct i as [| [| i]]; [reflexivity | reflexivity | lia].
  - reflexivity.
Defined.

(** Readiness round trip: when the discovery finds the vendor object, the one
    message the script has posted reaches the host as a call of [onSDKReady]
    with exactly that object's own method names, in key order, and changes
    nothing else in the client. *)
Theorem ready_round_trip world k v more pr c :
  k < 20 ->
  (forall i, i < k -> world (poll_time i) = None) ->
  world (poll_time k) = Some v ->
  exists m,
    Server.posted (Server.discovery world (k + more)) = [m] /\
    handleMessage pr (Parsed m) c =
      call_onSDKReady pr (JArr (JStr <$> Server.keys v)) c /\
    log (handleMessage pr (Parsed m) c) =
      (log c ++ (if onSDKReady pr
                 then [(now c, EvReady (JArr (JStr <$> Server.keys v)))]
                 else []))%list /\
    callbacks (handleMessage pr (Parsed m) c) = callbacks c.
Proof.
  intros Hk Hnone Hv. exists (Server.ready_announcement v).
  rewrite (discovery_found_stays world k v more Hk Hnone Hv).
  split; [reflexivity |].
  assert (H : handleMessage pr (Parsed (Server.ready_announcement v)) c =
              call_onSDKReady pr (JArr (JStr <$> Server.keys v)) c) by reflexivity.
  rewrite H. split; [reflexivity |].
  unfold call_onSDKReady. destruct (onSDKReady pr); simpl.
  - split; reflexivity.
  - rewrite app_nil_r. split; reflexivity.
Qed.

Lemma ready_round_trip_witness :
  0 < 20 /\
  log (handleMessage Demo.pr (Parsed (Server.ready_announcement Demo.vsdk)) init) =
    [(0%Z, EvReady (JArr [JStr "initialize"; JStr "getCards"; JStr "checkout"]))].
Proof.
  assert (H : 0 < 20) by lia.
  split; [exact H |].
  destruct (ready_round_trip (fun _ => Some Demo.vsdk) 0 Demo.vsdk 0 Demo.pr init H)
    as (m & Hposted & _ & Hlog & _).
  - intros i Hi. lia.
  - reflexivity.
  - injection Hposted as <-. exact Hlog.
Defined.

(** The call handler is attached only in the ready state: at every moment
    of the discovery, whatever the page does, at most one announcement has
    been posted, and either the script is not ready, has attached no
    listener (no request can reach the handler) and has posted nothing or
    the failure announcement; or it is ready, has attached the document and
    the window listener, once each, and what it has posted is the readiness
    announcement of the vendor object it saw at its last check. *)
Theorem listeners_only_when_ready world n :
  let s := Server.discovery world n in
  length (Server.posted s) <= 1 /\
  ((Server.sdkReady s = false /\ Server.listeners s = [] /\
    (Server.posted s = [] \/ Server.posted s = [Server.failure_announcement])) \/
   (Server.sdkReady s = true /\
    Server.listeners s = [Server.DocumentMessage; Server.WindowMessage] /\
    exists v, world (Server.clock s) = Some v /\
      Server.posted s = [Server.ready_announcement v])).
Proof.
  intros s. destruct (discovery_discovering world n) as [_ _ _ Hs].
  fold s in Hs. destruct (Server.retry s).
  - destruct Hs as (_ & _ & Hposted & Hlist & Hready). rewrite Hposted.
    split; [simpl; lia |]. left. auto.
  - destruct Hs as [(Hposted & Hlist & Hready & _) | (v & Hv & Hposted & Hlist & Hready)];
      rewrite Hposted; (split; [simpl; lia |]).
    + left. auto.
    + right. split; [exact Hready |]. split; [exact Hlist |]. exists v. auto.
Qed.

(** On a page that has no global named [message] (the bootstrap document),
    the call handler either completes, having posted exactly one message,
    the success response [{id, data}] that carries the [id] of the request
    it was given and the value the vendor function returned on the
    request's arguments; or ends in an unhandled ReferenceError, having
    posted nothing.  So it never posts a response with an [error] field, and
    it never changes the readiness flag, the listeners or the discovery
    counters. *)
Theorem handler_posts_success_or_nothing txt vsdk data s :
  let r := Server.handleMessage (Server.Page None txt) vsdk data s in
  Server.sdkReady (fst r) = Server.sdkReady s /\
  Server.listeners (fst r) = Server.listeners s /\
  Server.checkAttempts (fst r) = Server.checkAttempts s /\
  Server.retry (fst r) = Server.retry s /\
  ((snd r = Server.Fulfilled /\
    exists message name f actuals result,
      data = Server.Parsed message /\
      Server.sdkReady s = true /\
      String_ (prop message "functionName") = Some name /\
      Server.function_of vsdk name = Some f /\
      Server.spread (prop message "args") = Some actuals /\
      f actuals = Server.Returns result /\
      Server.posted (fst r) =
        (Server.posted s ++ [obj [("id", prop message "id"); ("data", result)]])%list) \/
   (snd r = Server.Rejected (Server.ErrorObj "ReferenceError" "message is not defined") /\
    Server.posted (fst r) = Server.posted s)) /\
  (forall m, m ∈ drop (length (Server.posted s)) (Server.posted (fst r)) ->
     prop m "error" = None).
Proof.
  intros r.
  assert (Hcases :
    (exists message name f actuals result,
       data = Server.Parsed message /\
       Server.sdkReady s = true /\
       String_ (prop message "functionName") = Some name /\
       Server.function_of vsdk name = Some f /\
       Server.spread (prop message "args") = Some actuals /\
       f actuals = Server.Returns result /\
       r = (Server.post (obj [("id", prop message "id"); ("data", result)]) s,
            Server.Fulfilled)) \/
    r = (s, Server.Rejected (Server.ErrorObj "ReferenceError" "message is not defined"))).
  { unfold r, Server.handleMessage.
    destruct (Server.try_block _ vsdk s data) as [e | response] eqn:Htry;
      [right; reflexivity |].
    left. unfold Server.try_block in Htry.
    destruct data as [| message]; [discriminate Htry |].
    assert (Hbody :
      (if negb (Server.sdkReady s) then inl (Server.ErrorObj "Error" "SDK not ready")
       else match String_ (prop message "functionName") with
            | None => inl (Server.engine_error (Server.Page None txt) Server.NoPrimitiveValue)
            | Some name =>
                match Server.function_of vsdk name with
                | Some f =>
                    match Server.spread (prop message "args") with
                    | Some actuals =>
                        match f actuals with
                        | Server.Returns result =>
                            inr (obj [("id", prop message "id"); ("data", result)])
                        | Server.Raises e => inl e
                        end
                    | None =>
                        inl (Server.engine_error (Server.Page None txt)
                               Server.SpreadNonIterable)
                    end
                | None => inl (Server.ErrorObj "Error" (Server.not_found_message name vsdk))
                end
            end) = inr response).
    { destruct message; try discriminate Htry; exact Htry. }
    clear Htry.
    destruct (Server.sdkReady s) eqn:Hready; [| discriminate Hbody]. cbn [negb] in Hbody.
    destruct (String_ (prop message "functionName")) as [name |] eqn:Hname;
      [| discriminate Hbody].
    destruct (Server.function_of vsdk name) as [f |] eqn:Hf; [| discriminate Hbody].
    destruct (Server.spread (prop message "args")) as [actuals |] eqn:Hargs;
      [| discriminate Hbody].
    destruct (f actuals) as [result | e] eqn:Hcall; [| discriminate Hbody].
    injection Hbody as <-.
    exists message, name, f, actuals, result. repeat split; assumption. }
  destruct Hcases as [(message & name & f & actuals & result & Hdata & Hready & Hname &
                       Hf & Hargs & Hcall & Hr) | Hr]; rewrite Hr; cbn [fst snd].
  - repeat split.
    + left. split; [reflexivity |].
      exists message, name, f, actuals, result. repeat split; assumption.
    + intros m. cbn [Server.post Server.posted]. rewrite drop_app_length.
      intros ->%list_elem_of_singleton. destruct (prop message "id"), result; reflexivity.
  - repeat split.
    + right. split; reflexivity.
    + intros m. rewrite drop_all. intros H%not_elem_of_nil. contradiction.
Qed.

(** A request without arguments: when the [args] field is missing (or null,
    false, zero or the empty string) the vendor function is invoked with no
    argument, and the one message the handler posts is the function's
    result under the request's id. *)
Theorem missing_args_mean_no_arguments pg vsdk s fields name f result :
  Server.sdkReady s = true ->
  String_ (assoc "functionName" fields) = Some name ->
  Server.function_of vsdk name = Some f ->
  truthy (assoc "args" fields) = false ->
  f [] = Server.Returns result ->
  let r := Server.handleMessage pg vsdk (Server.Parsed (JObj fields)) s in
  Server.posted (fst r) =
    (Server.posted s ++ [obj [("id", assoc "id" fields); ("data", result)]])%list /\
  snd r = Server.Fulfilled.
Proof.
  intros Hready Hname Hf Hargs Hcall r.
  assert (Hr : r = (Server.post (obj [("id", assoc "id" fields); ("data", result)]) s,
                    Server.Fulfilled)).
  { unfold r, Server.handleMessage, Server.try_block. cbn [prop].
    rewrite Hready. cbn [negb]. rewrite Hname, Hf. unfold Server.spread.
    rewrite Hargs, Hcall. reflexivity. }
  rewrite Hr. split; reflexivity.
Qed.

Lemma missing_args_mean_no_arguments_witness :
  Server.sdkReady Demo.ready_server = true /\
  truthy (assoc "args" [("id", JStr "msg_3"); ("functionName", JStr "checkout")]) = false /\
  Server.posted
    (fst (Server.handleMessage Demo.page Demo.vsdk
            (Server.Parsed (JObj [("id", JStr "msg_3"); ("functionName", JStr "checkout")]))
            Demo.ready_server)) =
    [Server.ready_announcement Demo.vsdk;
     obj [("id", Some (JStr "msg_3")); ("data", Some (JArr []))]].
Proof.
  assert (H1 : Server.sdkReady Demo.ready_server = true) by reflexivity.
  assert (H3 : truthy (assoc "args" [("id", JStr "msg_3"); ("functionName", JStr "checkout")])
               = false) by reflexivity.
  split; [exact H1 |]. split; [exact H3 |].
  exact (proj1 (missing_args_mean_no_arguments Demo.page Demo.vsdk Demo.ready_server
           [("id", JStr "msg_3"); ("functionName", JStr "checkout")] "checkout"
           (fun args => Server.Returns (Some (JArr args))) (Some (JArr [])) H1
           eq_refl eq_refl H3 eq_refl)).
Defined.

End ServerExtras.

(** * Native package registration *)

Module PackageFacts.
Import Package.

(** The two halves of the package agree: [getModule] creates a module for a
    name exactly when the module-info provider lists that name, which is the
    case for the module's [NAME] only; the single entry is filed under its
    own name and describes a TurboModule that is neither eager, nor C++, nor
    overridable. *)
Theorem module_registry_consistent (NAME : string) (Ctx : Type) (name : string) (ctx : Ctx) :
  (is_Some (getModule NAME Ctx name ctx) <-> is_Some (getReactModuleInfoProvider NAME !! name)) /\
  (is_Some (getModule NAME Ctx name ctx) <-> name = NAME) /\
  size (getReactModuleInfoProvider NAME) = 1%nat /\
  (forall info, getReactModuleInfoProvider NAME !! name = Some info ->
     Package.name info = name /\ className info = name /\
     isTurboModule info = true /\ needsEagerInit info = false /\
     isCxxModule info = false /\ canOverrideExistingModule info = false).
Proof.
  assert (Hsize : size (getReactModuleInfoProvider NAME) = 1%nat).
  { unfold getReactModuleInfoProvider.
    rewrite map_size_insert_None by apply lookup_empty. rewrite map_size_empty. reflexivity. }
  unfold getModule, getReactModuleInfoProvider in *.
  destruct (String.eqb_spec name NAME) as [-> | Hne].
  - rewrite lookup_insert_eq.
    split; [split; eauto |]. split; [split; eauto |]. split; [exact Hsize |].
    intros info [= <-]. repeat split.
  - rewrite lookup_insert_ne by congruence. rewrite lookup_empty.
    split; [split; intros [x Hx]; discriminate Hx |].
    split; [split; [intros [x Hx]; discriminate Hx | contradiction] |].
    split; [exact Hsize |]. discriminate.
Qed.

Lemma module_registry_consistent_witness :
  getReactModuleInfoProvider "HyperswitchClickToPay" !! "HyperswitchClickToPay" =
    Some (ModuleInfo "HyperswitchClickToPay" "HyperswitchClickToPay" false false false true) /\
  isTurboModule
    (ModuleInfo "HyperswitchClickToPay" "HyperswitchClickToPay" false false false true) = true.
Proof.
  assert (H : getReactModuleInfoProvider "HyperswitchClickToPay" !! "HyperswitchClickToPay" =
              Some (ModuleInfo "HyperswitchClickToPay" "HyperswitchClickToPay"
                      false false false true)) by reflexivity.
  split; [exact H |].
  exact (proj1 (proj2 (proj2 (proj2 (proj2 (proj2
    (module_registry_consistent "HyperswitchClickToPay" unit "HyperswitchClickToPay" tt)))
    _ H)))).
Defined.

End PackageFacts.

(** * The example application *)

Module ExampleFacts.
Import Example.

(** Whatever the bridge answers (and even without a mounted bridge), the
    three handlers of the example leave the [loading] flag off when they
    end; the checkout handler leaves it untouched when it refuses to start
    for want of a selected card. *)
Theorem handlers_reset_loading type_error date_now ref st :
  loading (fst (handleInitAndGetCards type_error date_now ref st)) = false /\
  loading (fst (handleSubmitOtp type_error ref st)) = false /\
  loading (fst (handleCheckout ref st)) =
    (if truthy (selectedCardId st) then false else loading st).
Proof.
  split; [| split].
  - unfold handleInitAndGetCards, await_call.
    destruct ref as [call |]; [destruct (call "initialize" _) |];
      try reflexivity;
      try (destruct (call "getCards" _)); reflexivity.
  - unfold handleSubmitOtp, await_call.
    destruct ref as [call |]; [destruct (call "getCards" _) |]; reflexivity.
  - unfold handleCheckout, await_call. destruct (truthy (selectedCardId st)); simpl;
      [| reflexivity].
    destruct ref as [call |]; [destruct (call "checkout" _) |]; reflexivity.
Qed.

(** [handleInitAndGetCards] asks for the cards only after [initialize] has
    resolved: with a mounted bridge it makes the [initialize] request first
    and the [getCards] request second, and when [initialize] is rejected it
    makes no second request, shows "Error: <message>" as status and in an
    alert, and changes neither the cards nor the OTP prompt. *)
Theorem cards_requested_after_initialize type_error date_now call st :
  snd (handleInitAndGetCards type_error date_now (Some call) st) =
    match call "initialize" [initialize_options date_now] with
    | Rejected _ => [("initialize", [initialize_options date_now])]
    | Resolved _ => [("initialize", [initialize_options date_now]);
                     ("getCards", [getCards_options])]
    end /\
  (forall message,
     call "initialize" [initialize_options date_now] = Rejected message ->
     let final := fst (handleInitAndGetCards type_error date_now (Some call) st) in
     status final = "Error: " +:+ message /\
     alerts final = (alerts st ++ [("Error", message)])%list /\
     cards final = cards st /\ showOtpInput final = showOtpInput st /\
     selectedCardId final = selectedCardId st).
Proof.
  unfold handleInitAndGetCards, await_call. split.
  - destruct (call "initialize" _); [| reflexivity].
    destruct (call "getCards" _); reflexivity.
  - intros message ->. simpl. repeat split.
Qed.

Lemma cards_requested_after_initialize_witness :
  (fun (fn : string) (_ : list json) => Rejected "Timeout calling initialize")
    "initialize" [initialize_options Demo.date_now] =
    Rejected "Timeout calling initialize" /\
  status (fst (handleInitAndGetCards (fun _ => "type error") Demo.date_now
                 (Some (fun _ _ => Rejected "Timeout calling initialize")) initial)) =
    "Error: Timeout calling initialize".
Proof.
  assert (H : (fun (fn : string) (_ : list json) => Rejected "Timeout calling initialize")
                "initialize" [initialize_options Demo.date_now] =
              Rejected "Timeout calling initialize") by reflexivity.
  split; [exact H |].
  exact (proj1 (proj2 (cards_requested_after_initialize (fun _ => "type error")
                         Demo.date_now
                         (fun _ _ => Rejected "Timeout calling initialize") initial)
                 "Timeout calling initialize" H)).
Defined.

(** Checkout needs a selected card: without one (the initial empty string,
    or an undefined id) the handler only shows an alert, makes no request and
    keeps the status; with one it makes exactly one [checkout] request whose
    [srcDigitalCardId] is the selected id, and it ends with the status
    "Checkout completed!" when the promise resolves and "Error: <message>"
    when it is rejected. *)
Theorem checkout_needs_a_card call st :
  (truthy (selectedCardId st) = false ->
     handleCheckout (Some call) st = (alert "Error" "Please select a card first" st, [])) /\
  (truthy (selectedCardId st) = true ->
     snd (handleCheckout (Some call) st) =
       [("checkout", [checkout_options (selectedCardId st)])] /\
     prop (checkout_options (selectedCardId st)) "srcDigitalCardId" = selectedCardId st /\
     status (fst (handleCheckout (Some call) st)) =
       match call "checkout" [checkout_options (selectedCardId st)] with
       | Resolved _ => "Checkout completed!"
       | Rejected message => "Error: " +:+ message
       end).
Proof.
  unfold handleCheckout, await_call. split; intros Hsel; rewrite Hsel; simpl.
  - reflexivity.
  - split; [destruct (call "checkout" _); reflexivity |]. split.
    + destruct (selectedCardId st); [reflexivity | discriminate Hsel].
    + destruct (call "checkout" _); reflexivity.
Qed.

Lemma checkout_needs_a_card_witness :
  truthy (selectedCardId initial) = false /\
  handleCheckout (Some (fun _ _ => Resolved None)) initial =
    (alert "Error" "Please select a card first" initial, []).
Proof.
  assert (H : truthy (selectedCardId initial) = false) by reflexivity.
  split; [exact H |].
  exact (proj1 (checkout_needs_a_card (fun _ _ => Resolved None) initial) H).
Defined.

End ExampleFacts.

(** * The example application mounted on the bridge *)

Module MountedFacts.
Import Example Mounted.

Lemma after_one_effect exn_text raw c e st :
  Client.handleMessage props raw c = Client.emit e c ->
  after_message exn_text raw c st = on_effect exn_text e st.
Proof.
  intros H. unfold after_message. rewrite H. simpl. rewrite drop_app_length. reflexivity.
Qed.

(** A failed discovery looks like success in the example: when the vendor
    service never appears, the only message the injected script posts is the
    failure announcement, the client hands it to [onSDKReady], and the
    application then shows the status "SDK Ready", exactly as it does for
    the announcement of a vendor service that was found; no alert is shown
    and nothing else changes. *)
Theorem example_shows_ready_after_failed_discovery world exn_text c st v :
  (forall t, world t = None) ->
  Server.posted (Server.discovery world 19) = [Server.failure_announcement] /\
  after_message exn_text (Client.Parsed Server.failure_announcement) c st =
    setStatus "SDK Ready" st /\
  after_message exn_text (Client.Parsed (Server.ready_announcement v)) c st =
    setStatus "SDK Ready" st.
Proof.
  intros Hnever. split; [| split].
  - pose proof (discovery_terminates world 19 ltac:(unfold Server.maxAttempts; lia)) as Hstop.
    destruct (discovery_discovering world 19) as [_ _ _ Hs]. rewrite Hstop in Hs.
    destruct Hs as [(Hposted & _) | (x & Hx & _)]; [exact Hposted |].
    rewrite Hnever in Hx. discriminate Hx.
  - apply (after_one_effect exn_text _ c (Client.EvReady (JArr []))). reflexivity.
  - apply (after_one_effect exn_text _ c
             (Client.EvReady (JArr (JStr <$> Server.keys v)))). reflexivity.
Qed.

Lemma example_shows_ready_after_failed_discovery_witness :
  (forall t : Z, (fun _ : Z => @None Server.vendor) t = None) /\
  status (after_message (fun _ => "parse error")
            (Client.Parsed Server.failure_announcement) Client.init initial) = "SDK Ready".
Proof.
  assert (H : forall t : Z, (fun _ : Z => @None Server.vendor) t = None)
    by (intros t; reflexivity).
  split; [exact H |].
  destruct (example_shows_ready_after_failed_discovery (fun _ => None)
              (fun _ => "parse error") Client.init initial [] H) as (_ & Hstatus & _).
  rewrite Hstatus. reflexivity.
Defined.

(** A failure of the WebView itself is reported through [onError] with the
    native description, or with "WebView error" when the description is
    missing or empty; the example application then shows it after "SDK
    Error: ", and the reported message is never empty. *)
Theorem webview_error_reported (description : option string) st :
  let text := match description with
              | Some d => if String.eqb d EmptyString then "WebView error" else d
              | None => "WebView error"
              end in
  Host.handleError props (JStr <$> description) = Some text /\
  text <> EmptyString /\
  after_webview_error (JStr <$> description) st = setStatus ("SDK Error: " +:+ text) st.
Proof.
  destruct description as [d |]; simpl.
  - unfold after_webview_error, Host.handleError. simpl.
    destruct (String.eqb_spec d EmptyString) as [-> | Hne]; simpl.
    + split; [reflexivity |]. split; [discriminate | reflexivity].
    + split; [reflexivity |]. split; [exact Hne | reflexivity].
  - split; [reflexivity |]. split; [discriminate | reflexivity].
Qed.

End MountedFacts.
